(** * nameof: selector capture and path-based get / set

    A shallow embedding of [src/index.ts] (package [@diagonal2/nameof]) and
    the verification of its specification.

    The program manipulates JavaScript objects in place, so the embedding
    works over an explicit store of objects:

    - a value is a primitive or a reference into the store;
    - an object has a [[Prototype]] link, the [[Extensible]] flag and a
      list of own properties in creation order;
    - an own property is a data property with its [[Writable]] attribute,
      or the accessor that [Object.prototype] has under [__proto__];
    - [object[key]] and [key in object] walk the prototype chain;
    - [object[key] = v], in strict mode, follows [[Set]] of ordinary
      objects: it is refused with a [TypeError] on a read-only property
      and on a new property of a non-extensible object, it calls the
      [__proto__] setter when the key resolves to that accessor, and
      otherwise creates or updates an own data property of [object].

    Every object of a store is an ordinary object (callable or not).
    Arrays and other exotic objects, and accessor properties that run
    code of the caller, cannot be represented.

    Effects are threaded through a small state-and-exception monad whose
    third outcome, [Stuck], marks the places where the store itself is
    ill-formed (a dangling reference, a prototype chain that does not end)
    and the model has no answer. *)

From Stdlib Require Import ZArith NArith String Ascii List Bool Lia.
From stdpp Require Import base option list.

Local Open Scope string_scope.
Local Open Scope list_scope.

(** ** Values and the object store *)

Abbreviation loc := nat (only parsing).

Inductive val : Type :=
| VUndefined
| VNull
| VBool (b : bool)
| VNum (n : Z)
| VStr (s : string)
| VSym (id : nat)
| VObj (l : loc)        (* reference to an object that is not callable *)
| VFun (l : loc).       (* reference to a callable object *)

Inductive property : Type :=
| Data (value : val) (writable : bool)
| ProtoAccessor.        (* the getter and setter of [__proto__] *)

Record obj : Type := Obj {
  proto : option loc;                  (* [[Prototype]]: null or an object *)
  callable : bool;                     (* has [[Call]] *)
  extensible : bool;                   (* [[Extensible]] *)
  props : list (string * property)     (* own properties, oldest first *)
}.

Abbreviation heap := (list obj) (only parsing).

Definition with_props (o : obj) (ps : list (string * property)) : obj :=
  Obj (proto o) (callable o) (extensible o) ps.

Definition with_proto (o : obj) (p : option loc) : obj :=
  Obj p (callable o) (extensible o) (props o).

(** [%Object.prototype%], the prototype of every object literal. *)
Definition object_prototype : loc := 0.

(** The [typeof] operator. *)
Definition typeof (v : val) : string :=
  match v with
  | VUndefined => "undefined"
  | VNull => "object"
  | VBool _ => "boolean"
  | VNum _ => "number"
  | VStr _ => "string"
  | VSym _ => "symbol"
  | VObj _ => "object"
  | VFun _ => "function"
  end.

(** [v == null]: loose equality with [null] holds of [null] and
    [undefined] only. *)
Definition loose_eq_null (v : val) : bool :=
  match v with
  | VUndefined | VNull => true
  | _ => false
  end.

(** The test both loops use: [typeof v === "object" && v != null]. *)
Definition object_like (v : val) : bool :=
  (typeof v =? "object") && negb (loose_eq_null v).

(** The object a value refers to. *)
Definition ref_of (v : val) : option loc :=
  match v with
  | VObj l | VFun l => Some l
  | _ => None
  end.

(** Own properties: an association list read at the first match, updated
    in place when the key exists and extended at the end otherwise. *)
Fixpoint own (k : string) (ps : list (string * property)) : option property :=
  match ps with
  | [] => None
  | (k', p) :: ps' => if k =? k' then Some p else own k ps'
  end.

Fixpoint own_put (k : string) (p : property) (ps : list (string * property))
  : list (string * property) :=
  match ps with
  | [] => [(k, p)]
  | (k', p') :: ps' =>
      if k =? k' then (k', p) :: ps' else (k', p') :: own_put k p ps'
  end.

(** The walk along the prototype chain that [[Get]], [[HasProperty]] and
    [[Set]] share.  [Some (Some p)]: the first object of the chain that
    owns the key has it as [p]; [Some None]: the chain ended without the
    key; [None]: the store is ill-formed here (dangling reference, or
    more links than [fuel]). *)
Fixpoint find_property (fuel : nat) (h : heap) (l : loc) (k : string)
  : option (option property) :=
  match fuel with
  | O => None
  | S fuel' =>
      match h !! l with
      | None => None
      | Some o =>
          match own k (props o) with
          | Some p => Some (Some p)
          | None =>
              match proto o with
              | None => Some None
              | Some l' => find_property fuel' h l' k
              end
          end
      end
  end.

(** The prototype chain of [l] reaches [null] within [fuel] objects. *)
Fixpoint chain_ends (fuel : nat) (h : heap) (l : loc) : bool :=
  match fuel with
  | O => false
  | S fuel' =>
      match h !! l with
      | None => false
      | Some o =>
          match proto o with
          | None => true
          | Some l' => chain_ends fuel' h l'
          end
      end
  end.

(** [c] is [l] or one of the objects on the prototype chain of [l]. *)
Fixpoint on_chain (fuel : nat) (h : heap) (l c : loc) : bool :=
  match fuel with
  | O => false
  | S fuel' =>
      (l =? c)%nat ||
      match h !! l with
      | Some o =>
          match proto o with
          | Some l' => on_chain fuel' h l' c
          | None => false
          end
      | None => false
      end
  end.

(** What the getter of [__proto__] returns on [l]: its prototype. *)
Definition proto_value (h : heap) (l : loc) : option val :=
  match h !! l with
  | None => None
  | Some o =>
      match proto o with
      | None => Some VNull
      | Some l' =>
          match h !! l' with
          | None => None
          | Some o' => Some (if callable o' then VFun l' else VObj l')
          end
      end
  end.

(** The value of a property that was found, for the object the read
    started from. *)
Definition read_property (h : heap) (receiver : loc) (p : property)
  : option val :=
  match p with
  | Data v _ => Some v
  | ProtoAccessor => proto_value h receiver
  end.

(** [[Get]] from [l] on behalf of [receiver].  A chain that ends visits
    every object at most once, hence the number of objects in the store
    bounds the walk ([chain_ends_within_store] below). *)
Definition lookup_from (h : heap) (receiver l : loc) (k : string)
  : option (option val) :=
  match find_property (length h) h l k with
  | None => None
  | Some None => Some None
  | Some (Some p) =>
      match read_property h receiver p with
      | Some v => Some (Some v)
      | None => None
      end
  end.

Definition lookup_property (h : heap) (l : loc) (k : string)
  : option (option val) :=
  lookup_from h l l k.

(** ** Assignment *)

Inductive exn : Type :=
| TypeError (msg : string).

(** The errors with which the language refuses an assignment.  Each is
    a [TypeError]; the message is the engine's, and is abbreviated
    here. *)
Definition read_only_error : exn :=
  TypeError "Cannot assign to read only property".
Definition not_extensible_error : exn :=
  TypeError "Cannot add property, object is not extensible".
Definition prototype_error : exn :=
  TypeError "Object prototype may not be changed".
Definition cyclic_error : exn :=
  TypeError "Cyclic __proto__ value".

(** An assignment that the language refuses raises one of them. *)
Definition refusal (e : exn) : Prop :=
  e = read_only_error \/ e = not_extensible_error \/
  e = prototype_error \/ e = cyclic_error.

(** The end of [[Set]] on a data property: the value of the own property
    is replaced, or a new own property is created, which a
    non-extensible object refuses. *)
Definition define_own (h : heap) (l : loc) (k : string) (v : val)
  : option (exn + heap) :=
  match h !! l with
  | None => None
  | Some o =>
      let h' := <[l := with_props o (own_put k (Data v true) (props o))]> h in
      match own k (props o) with
      | Some _ => Some (inr h')
      | None =>
          if extensible o then Some (inr h') else Some (inl not_extensible_error)
      end
  end.

(** [[SetPrototypeOf]] of an ordinary object, and of [Object.prototype],
    whose prototype is immutable. *)
Definition change_prototype (h : heap) (l : loc) (np : option loc)
  : option (exn + heap) :=
  match h !! l with
  | None => None
  | Some o =>
      if decide (proto o = np) then Some (inr h)
      else if (l =? object_prototype)%nat then Some (inl prototype_error)
      else if negb (extensible o) then Some (inl prototype_error)
      else
        match np with
        | None => Some (inr (<[l := with_proto o None]> h))
        | Some p =>
            if chain_ends (length h) h p then
              if on_chain (length h) h p l then Some (inl cyclic_error)
              else Some (inr (<[l := with_proto o (Some p)]> h))
            else None
        end
  end.

(** The setter of [__proto__]: a value that is neither an object nor
    [null] is ignored. *)
Definition set_prototype (h : heap) (l : loc) (v : val)
  : option (exn + heap) :=
  match v with
  | VObj p | VFun p => change_prototype h l (Some p)
  | VNull => change_prototype h l None
  | _ => Some (inr h)
  end.

(** [[Set]] with the object itself as receiver, in strict mode. *)
Definition put_property (h : heap) (l : loc) (k : string) (v : val)
  : option (exn + heap) :=
  match find_property (length h) h l k with
  | None => None
  | Some None => define_own h l k v
  | Some (Some (Data _ true)) => define_own h l k v
  | Some (Some (Data _ false)) => Some (inl read_only_error)
  | Some (Some ProtoAccessor) => set_prototype h l v
  end.

(** ** The monad: state, exceptions, and [Stuck] *)

Inductive res (S A : Type) : Type :=
| Ret (a : A) (s : S)
| Throw (e : exn) (s : S)
| Stuck.
Arguments Ret {S A} a s.
Arguments Throw {S A} e s.
Arguments Stuck {S A}.

Definition M (S A : Type) : Type := S -> res S A.

Definition ret {S A} (a : A) : M S A := fun s => Ret a s.
Definition throw {S A} (e : exn) : M S A := fun s => Throw e s.
Definition bind {S A B} (m : M S A) (f : A -> M S B) : M S B :=
  fun s =>
    match m s with
    | Ret a s' => f a s'
    | Throw e s' => Throw e s'
    | Stuck => Stuck
    end.

Notation "'let!' x ':=' m 'in' k" := (bind m (fun x => k))
  (at level 10, x name, m at level 100, k at level 200).

(** ** The operators of the language, on the store *)

(** [object[key]] *)
Definition js_get (object : val) (key : string) : M heap val :=
  fun h =>
    match object with
    | VObj l | VFun l =>
        match lookup_property h l key with
        | Some r => Ret (default VUndefined r) h
        | None => Stuck
        end
    | VUndefined | VNull =>
        Throw (TypeError "Cannot read properties of null or undefined") h
    | _ => Stuck (* primitive wrappers are not modelled *)
    end.

(** [key in object] *)
Definition js_in (key : string) (object : val) : M heap bool :=
  fun h =>
    match object with
    | VObj l | VFun l =>
        match find_property (length h) h l key with
        | Some (Some _) => Ret true h
        | Some None => Ret false h
        | None => Stuck
        end
    | _ => Throw (TypeError "Cannot use 'in' operator on a non-object") h
    end.

(** [object[key] = v] in strict mode. *)
Definition js_put (object : val) (key : string) (v : val) : M heap unit :=
  fun h =>
    match object with
    | VObj l | VFun l =>
        match put_property h l key v with
        | Some (inr h') => Ret tt h'
        | Some (inl e) => Throw e h
        | None => Stuck
        end
    | _ => Throw (TypeError "Cannot create property on a non-object") h
    end.

(** The object literal [{}]. *)
Definition empty_object : obj := Obj (Some object_prototype) false true [].

Definition new_object : M heap val :=
  fun h => Ret (VObj (length h)) (h ++ [empty_object]).

(** ** The program *)

(** [safeCast] only changes the static type. *)
Definition safeCast (v : val) : val := v.

(** *** The capture engine *)

(** A property key as the [get] trap of a proxy receives it. *)
Inductive key : Type :=
| KString (s : string)
| KSymbol (id : nat).

(** What an expression of a selector evaluates to during a capture: one
    of the proxies, or [undefined]. *)
Inductive synthetic : Type :=
| Proxy
| SUndefined.

(** The [get] trap that [proxyMagic(path)] installs; the state is the
    array [path], shared by all the proxies of a session. *)
Definition proxyMagic (name : key) : M (list string) synthetic :=
  match name with
  | KString s => fun path => Ret Proxy (path ++ [s])
  | KSymbol _ => throw (TypeError "Entity contains a non-string key type.")
  end.

(** One access of a chain: [.name] or [?.name]. *)
Record access : Type := Access {
  optional : bool;
  name : key
}.

(** Selectors of the documented form, [t => t.p1.p2. ... .pn], where each
    [.] may be [?.]. *)
Definition Selector := list access.

(** Evaluation of the chain on the current value.  [?.] on a nullish value
    ends the whole chain with [undefined]; [.] on it throws. *)
Fixpoint apply_selector (cur : synthetic) (selector : Selector)
  : M (list string) synthetic :=
  match selector with
  | [] => ret cur
  | a :: selector' =>
      match cur with
      | Proxy =>
          let! next := proxyMagic (name a) in
          apply_selector next selector'
      | SUndefined =>
          if optional a then ret SUndefined
          else throw (TypeError "Cannot read properties of undefined")
      end
  end.

(** [nameof]: a fresh array, one call of the selector, the array is the
    result.  When the selector throws, the array is lost with the frame. *)
Definition nameof {S} (selector : Selector) : M S (list string) :=
  fun s =>
    match apply_selector Proxy selector [] with
    | Ret _ path => Ret path s
    | Throw e _ => Throw e s
    | Stuck => Stuck
    end.

Definition nameofFactory {S} : Selector -> M S (list string) := nameof.

(** The second argument of [get] and [set]. *)
Inductive selectorOrPath : Type :=
| IsFunction (selector : Selector)
| IsArray (path : list string).

Definition normalize (sp : selectorOrPath) : M heap (list string) :=
  match sp with
  | IsFunction selector => nameof selector
  | IsArray path => ret path
  end.

(** *** get *)

Fixpoint get_loop (output : val) (path : list string) : M heap val :=
  match path with
  | [] => ret output
  | key :: path' =>
      if object_like output then
        let object := safeCast output in
        let! present := js_in key object in
        if present : bool then
          let! output' := js_get object key in
          get_loop output' path'
        else ret VUndefined
      else ret VUndefined
  end.

Definition get (entity : val) (sp : selectorOrPath) : M heap val :=
  let! path := normalize sp in
  get_loop entity path.

(** *** set *)

Definition conflict_message (path : list string) : string :=
  "Path [" ++ String.concat "," path ++ "] conflicts with the entity structure.".

(** [rest] is [path] from index [i] on; [i !== path.length - 1] is
    [rest] having a second element. *)
Fixpoint set_loop (path : list string) (object : val) (rest : list string)
  (v : val) : M heap unit :=
  match rest with
  | [] => ret tt
  | key :: rest' =>
      match rest' with
      | _ :: _ =>
          let! value := js_get object key in
          if object_like value then
            set_loop path (safeCast value) rest' v
          else if loose_eq_null value then
            let! newValue := new_object in
            let! _ := js_put object key newValue in
            set_loop path newValue rest' v
          else throw (TypeError (conflict_message path))
      | [] => js_put object key v
      end
  end.

Definition set (entity : val) (sp : selectorOrPath) (v : val) : M heap unit :=
  let! path := normalize sp in
  set_loop path (safeCast entity) path v.

(** ** The walk of [set] on its own *)

(** One iteration of [set]'s loop with [i !== path.length - 1]: the
    container the loop continues in. *)
Definition step (path : list string) (container : val) (key : string)
  : M heap val :=
  let! value := js_get container key in
  if object_like value then ret (safeCast value)
  else if loose_eq_null value then
    let! newValue := new_object in
    let! _ := js_put container key newValue in
    ret newValue
  else throw (TypeError (conflict_message path)).

(** These iterations run on the names [q]: the container reached after
    them.  [set_loop] is this walk followed by the assignment of the last
    name ([set_loop_descend] below). *)
Fixpoint descend (path : list string) (container : val) (q : list string)
  : M heap val :=
  match q with
  | [] => ret container
  | key :: q' =>
      let! next := step path container key in
      descend path next q'
  end.

(** The walk over [q] has reached a name whose value blocks it: the
    names [q1] before it brought the walk from [e] to the container [c]
    and the store to [h'], and the value read there under [k1] is
    neither object-like nor nullish. *)
Definition blocked (path : list string) (e : loc) (q : list string)
    (h h' : heap) : Prop :=
  exists q1 k1 q2 c x,
    q = q1 ++ k1 :: q2 /\
    descend path (VObj e) q1 h = Ret (VObj c) h' /\
    js_get (VObj c) k1 h' = Ret x h' /\
    object_like x = false /\ loose_eq_null x = false.

(** The properties a walk over [q] from [e] works on: the name [k] on
    the container [l] that the names before it lead to. *)
Definition touched (path : list string) (e : loc) (q : list string)
    (h : heap) (l : loc) (k : string) : Prop :=
  exists q1 rest hi,
    q = q1 ++ k :: rest /\ descend path (VObj e) q1 h = Ret (VObj l) hi.

(** The property that receives the value: the last name of the path on
    the container that the names before it lead to. *)
Definition target (path : list string) (e : loc) (h : heap) (l : loc)
    (k : string) : Prop :=
  exists q hi,
    path = q ++ [k] /\ descend path (VObj e) q h = Ret (VObj l) hi.

(** ** The order in which own property names are listed *)

(** [OrdinaryOwnPropertyKeys]: the names that are array indices in
    ascending order, then the other names in creation order. *)
Definition digit (c : ascii) : option N :=
  let n := N_of_ascii c in
  if ((48 <=? n) && (n <=? 57))%N then Some (n - 48)%N else None.

Fixpoint digits (s : string) (acc : N) : option N :=
  match s with
  | EmptyString => Some acc
  | String c s' =>
      match digit c with
      | Some d => digits s' (10 * acc + d)%N
      | None => None
      end
  end.

(** The canonical decimal numerals below [2^32 - 1]. *)
Definition array_index (s : string) : option N :=
  match s with
  | EmptyString => None
  | String c s' =>
      if (N_of_ascii c =? 48)%N then
        match s' with EmptyString => Some 0%N | _ => None end
      else
        match digits s 0 with
        | Some n => if (n <? 4294967295)%N then Some n else None
        | None => None
        end
  end.

Fixpoint insert_index (x : N * string) (l : list (N * string))
  : list (N * string) :=
  match l with
  | [] => [x]
  | y :: l' => if (fst x <? fst y)%N then x :: l else y :: insert_index x l'
  end.

Definition indexed (names : list string) : list (N * string) :=
  fold_left (fun acc s =>
               match array_index s with
               | Some n => insert_index (n, s) acc
               | None => acc
               end) names [].

Definition named (names : list string) : list string :=
  List.filter (fun s => match array_index s with None => true | _ => false end)
              names.

Definition own_keys (o : obj) : list string :=
  map snd (indexed (map fst (props o))) ++ named (map fst (props o)).

(** ** What a run of [set] leaves alone *)

(** Every object of [h] is still in [h'], callable and extensible as it
    was; its own names are listed in the same order, with new ones among
    them; the properties that are not [along] the path are the same; and
    a data property that held a value other than [null] and [undefined]
    is the same unless it is the [assigned] one. *)
Definition frame (along assigned : loc -> string -> Prop) (h h' : heap)
  : Prop :=
  forall l o, h !! l = Some o ->
    exists o', h' !! l = Some o' /\
      callable o' = callable o /\ extensible o' = extensible o /\
      own_keys o `sublist_of` own_keys o' /\
      (forall k, ~ along l k -> own k (props o') = own k (props o)) /\
      (forall k x w, own k (props o) = Some (Data x w) ->
                     loose_eq_null x = false ->
                     ~ assigned l k -> own k (props o') = Some (Data x w)).

(** No object of [h] has an accessor under one of the [names]. *)
Definition accessor_free (h : heap) (names : list string) : Prop :=
  forall l o k, h !! l = Some o -> In k names ->
                own k (props o) <> Some ProtoAccessor.

Definition accessor_freeb (h : heap) (names : list string) : bool :=
  forallb (fun o =>
             forallb (fun k => match own k (props o) with
                               | Some ProtoAccessor => false
                               | _ => true
                               end) names) h.

(** Every object of [h] is in [h'] with the prototype it had. *)
Definition same_prototypes (h h' : heap) : Prop :=
  forall l o, h !! l = Some o ->
    exists o', h' !! l = Some o' /\ proto o' = proto o.

(** Every read that found a value other than [null] and [undefined] in
    [h] finds the same value in [h'], except possibly the reads of the
    key [except]. *)
Definition preserved_but (except : option string) (h h' : heap) : Prop :=
  forall l k x,
    Some k <> except ->
    lookup_property h l k = Some (Some x) ->
    loose_eq_null x = false ->
    lookup_property h' l k = Some (Some x).

(** ** Aliasing *)

(** Every earlier position of the name [k] in the walk over [q] reads
    from a container that is neither the object the walk ends in nor has
    it on its prototype chain: an assignment of [k] to that object is
    not visible from there. *)
Definition unshadowed (path q : list string) (k : string) (e : loc)
    (h h' : heap) : Prop :=
  forall q1 q2 o h0 c h1,
    q = q1 ++ k :: q2 ->
    descend path (VObj e) q1 h = Ret (VObj o) h0 ->
    descend path (VObj e) q h = Ret (VObj c) h1 ->
    on_chain (length h') h' o c = false.

(** On the object the walk over [q] ends in, the name [k] does not
    resolve to an accessor: an assignment of [k] there is the
    assignment of a data property. *)
Definition data_target (path q : list string) (k : string) (e : loc)
    (h : heap) : Prop :=
  forall c h1,
    descend path (VObj e) q h = Ret (VObj c) h1 ->
    find_property (length h1) h1 c k <> Some (Some ProtoAccessor).

(** ** Well-formed stores *)

(** A reference is meaningful when its target is allocated. *)
Definition val_ok (h : heap) (v : val) : bool :=
  match v with
  | VObj l | VFun l => l <? length h
  | _ => true
  end%nat.

Definition property_ok (h : heap) (p : property) : bool :=
  match p with
  | Data v _ => val_ok h v
  | ProtoAccessor => true
  end.

(** No dangling reference, and every prototype chain ends. *)
Definition heap_wf (h : heap) : bool :=
  forallb (fun o => forallb (fun kp => property_ok h (snd kp)) (props o)) h
  && forallb (chain_ends (length h) h) (seq 0 (length h)).

(** [heap_wf] as the two properties it decides. *)
Definition wf_prop (h : heap) : Prop :=
  (forall l o k p, h !! l = Some o -> In (k, p) (props o) ->
                   property_ok h p = true)
  /\ (forall l, l < length h -> chain_ends (length h) h l = true).

(** What the prototype chain above the object [o] at [l] has to say
    about [k]. *)
Definition inherited (h : heap) (l : loc) (o : obj) (k : string)
  : option (option val) :=
  match proto o with
  | None => Some None
  | Some l' => lookup_from h l l' k
  end.

(** ** Selectors of the documented form *)

(** A chain of string-named accesses, each written [.] ([false]) or
    [?.] ([true]). *)
Definition string_chain (accesses : list (bool * string)) : Selector :=
  map (fun a => Access (fst a) (KString (snd a))) accesses.

Definition non_string_key : exn :=
  TypeError "Entity contains a non-string key type.".

(** ** Stores used in the examples *)

(** A built-in function object: [length] and [name] are read-only. *)
Definition function_prototype : loc := 1.

Definition builtin (name : string) (arity : Z) : obj :=
  Obj (Some function_prototype) true true
      [("length", Data (VNum arity) false); ("name", Data (VStr name) false)].

(** Writable data properties with the given values. *)
Definition plain (ps : list (string * val)) : list (string * property) :=
  map (fun kv => (fst kv, Data (snd kv) true)) ps.

(** [Object.prototype] with its own properties, and the functions they
    hold.  A walk of [get] or [set] never enters a function ([typeof] is
    not ["object"]), so that of the function objects only what an
    assignment to a function entity meets is kept: the read-only
    [length] and [name], and the methods of [Function.prototype]. *)
Definition Object_prototype : obj :=
  Obj None false true
      (plain [("constructor", VFun 2); ("__defineGetter__", VFun 3);
              ("__defineSetter__", VFun 4); ("hasOwnProperty", VFun 5);
              ("__lookupGetter__", VFun 6); ("__lookupSetter__", VFun 7);
              ("isPrototypeOf", VFun 8); ("propertyIsEnumerable", VFun 9);
              ("toString", VFun 10); ("valueOf", VFun 11)]
       ++ [("__proto__", ProtoAccessor)]
       ++ plain [("toLocaleString", VFun 12)]).

Definition Function_prototype : obj :=
  Obj (Some object_prototype) true true
      ([("length", Data (VNum 0) false); ("name", Data (VStr "") false)]
       ++ plain [("apply", VFun 13); ("bind", VFun 14); ("call", VFun 15);
                 ("toString", VFun 16)]).

Definition realm : heap :=
  [Object_prototype; Function_prototype;
   builtin "Object" 1; builtin "__defineGetter__" 2;
   builtin "__defineSetter__" 2; builtin "hasOwnProperty" 1;
   builtin "__lookupGetter__" 1; builtin "__lookupSetter__" 1;
   builtin "isPrototypeOf" 1; builtin "propertyIsEnumerable" 1;
   builtin "toString" 0; builtin "valueOf" 0; builtin "toLocaleString" 0;
   builtin "apply" 2; builtin "bind" 1; builtin "call" 1;
   builtin "toString" 0].

(** An object literal with the given properties. *)
Definition literal (ps : list (string * val)) : obj :=
  Obj (Some object_prototype) false true (plain ps).

(** The realm and one entity, an object literal, after it. *)
Definition entity_loc : loc := 17.
Definition entity_ref : val := VObj entity_loc.
Definition store_with (entity : list (string * val)) : heap :=
  realm ++ [literal entity].

(** The same with a second object literal, at the next location. *)
Definition inner_loc : loc := 18.
Definition store_with2 (entity inner : list (string * val)) : heap :=
  realm ++ [literal entity; literal inner].

(** An object literal after [Object.freeze]. *)
Definition frozen (ps : list (string * val)) : obj :=
  Obj (Some object_prototype) false false
      (map (fun kv => (fst kv, Data (snd kv) false)) ps).

(** * Proofs *)

(** ** Own properties *)

Lemma own_put_eq k p ps : own k (own_put k p ps) = Some p.
Proof.
  induction ps as [|[k' p'] ps IH]; simpl.
  - now rewrite String.eqb_refl.
  - destruct (k =? k') eqn:E; simpl; rewrite E; auto.
Qed.

Lemma own_put_ne k k' p ps : k' <> k -> own k' (own_put k p ps) = own k' ps.
Proof.
  intros Hne. induction ps as [|[k0 p0] ps IH]; simpl.
  - apply String.eqb_neq in Hne. now rewrite Hne.
  - destruct (k =? k0) eqn:E; simpl.
    + apply String.eqb_eq in E. subst k0.
      apply String.eqb_neq in Hne. now rewrite Hne.
    + now rewrite IH.
Qed.

Lemma own_put_put k p1 p2 ps : own_put k p2 (own_put k p1 ps) = own_put k p2 ps.
Proof.
  induction ps as [|[k' p'] ps IH]; simpl.
  - now rewrite String.eqb_refl.
  - destruct (k =? k') eqn:E; simpl; rewrite E; [reflexivity | now rewrite IH].
Qed.

Lemma own_In k ps p : own k ps = Some p -> In (k, p) ps.
Proof.
  induction ps as [|[k' p'] ps IH]; simpl; [discriminate|].
  destruct (String.eqb_spec k k') as [->|]; [intros [= ->]; auto | auto].
Qed.

Lemma own_put_In k p ps k' p' :
  In (k', p') (own_put k p ps) -> p' = p \/ In (k', p') ps.
Proof.
  induction ps as [|[k0 p0] ps IH]; simpl.
  - intros [[= <- <-]|[]]. auto.
  - destruct (k =? k0); simpl.
    + intros [[= <- <-]|H]; auto.
    + intros [H|H]; auto. destruct (IH H); auto.
Qed.

(** An update keeps the names where they are; a new name goes last. *)
Lemma own_put_names k p ps :
  map fst (own_put k p ps)
  = match own k ps with
    | Some _ => map fst ps
    | None => map fst ps ++ [k]
    end.
Proof.
  induction ps as [|[k' p'] ps IH]; simpl; [reflexivity|].
  destruct (k =? k') eqn:E; simpl; [reflexivity|].
  rewrite IH. now destruct (own k ps).
Qed.

(** ** The prototype walk *)

Lemma find_property_mono n m h l k r :
  find_property n h l k = Some r -> n <= m -> find_property m h l k = Some r.
Proof.
  revert m l. induction n as [|n IH]; intros m l Hf Hle; [discriminate|].
  destruct m as [|m]; [lia|]. simpl in *.
  destruct (h !! l) as [o|]; [|discriminate].
  destruct (own k (props o)); [assumption|].
  destruct (proto o); [|assumption].
  apply IH; [assumption | lia].
Qed.

Lemma find_property_det n m h l k r1 r2 :
  find_property n h l k = Some r1 -> find_property m h l k = Some r2 -> r1 = r2.
Proof.
  intros H1 H2.
  apply (find_property_mono _ (n + m)) in H1; [|lia].
  apply (find_property_mono _ (n + m)) in H2; [|lia].
  congruence.
Qed.

Lemma find_property_app n h h2 l k r :
  find_property n h l k = Some r -> find_property n (h ++ h2) l k = Some r.
Proof.
  revert l. induction n as [|n IH]; intros l Hf; [discriminate|].
  simpl in *. destruct (h !! l) as [o|] eqn:Hl; [|discriminate].
  rewrite (lookup_app_l_Some _ _ _ _ Hl).
  destruct (own k (props o)); [assumption|].
  destruct (proto o); [|assumption]. now apply IH.
Qed.

Lemma find_property_allocated n h l k r :
  find_property n h l k = Some r -> l < length h.
Proof.
  destruct n; [discriminate|]. simpl.
  destruct (h !! l) eqn:E; [|discriminate]. intros _.
  eapply lookup_lt_Some; eauto.
Qed.

Lemma proto_value_app h h2 l v :
  proto_value h l = Some v -> proto_value (h ++ h2) l = Some v.
Proof.
  unfold proto_value. destruct (h !! l) as [o|] eqn:Hl; [|discriminate].
  rewrite (lookup_app_l_Some _ _ _ _ Hl).
  destruct (proto o) as [l'|]; [|auto].
  destruct (h !! l') as [o'|] eqn:Hl'; [|discriminate].
  now rewrite (lookup_app_l_Some _ _ _ _ Hl').
Qed.

Lemma read_property_app h h2 l p v :
  read_property h l p = Some v -> read_property (h ++ h2) l p = Some v.
Proof. destruct p; simpl; auto using proto_value_app. Qed.

(** What a read says about the walk. *)
Lemma lookup_property_Some h l k x :
  lookup_property h l k = Some (Some x) ->
  exists p, find_property (length h) h l k = Some (Some p) /\
            read_property h l p = Some x.
Proof.
  unfold lookup_property, lookup_from.
  destruct (find_property (length h) h l k) as [[p|]|]; try discriminate.
  destruct (read_property h l p) eqn:E; [|discriminate].
  intros [= ->]. eauto.
Qed.

Lemma lookup_property_None h l k :
  lookup_property h l k = Some None <->
  find_property (length h) h l k = Some None.
Proof.
  unfold lookup_property, lookup_from.
  destruct (find_property (length h) h l k) as [[p|]|]; try easy.
  destruct (read_property h l p); easy.
Qed.

Lemma lookup_property_intro h l k p x n :
  find_property n h l k = Some (Some p) -> n <= length h ->
  read_property h l p = Some x ->
  lookup_property h l k = Some (Some x).
Proof.
  intros Hf Hn Hr. unfold lookup_property, lookup_from.
  rewrite (find_property_mono _ _ _ _ _ _ Hf Hn). now rewrite Hr.
Qed.

Lemma lookup_property_app h h2 l k r :
  lookup_property h l k = Some r -> lookup_property (h ++ h2) l k = Some r.
Proof.
  unfold lookup_property, lookup_from. rewrite length_app.
  destruct (find_property (length h) h l k) as [[p|]|] eqn:Hf; try discriminate.
  - destruct (read_property h l p) as [x|] eqn:Hr; [|discriminate].
    intros [= <-].
    rewrite (find_property_app _ _ h2 _ _ _
               (find_property_mono _ (length h + length h2) _ _ _ _ Hf
                  ltac:(lia))).
    now rewrite (read_property_app _ h2 _ _ _ Hr).
  - intros [= <-].
    now rewrite (find_property_app _ _ h2 _ _ _
                   (find_property_mono _ (length h + length h2) _ _ _ _ Hf
                      ltac:(lia))).
Qed.

Lemma lookup_property_allocated h l k r :
  lookup_property h l k = Some r -> l < length h.
Proof.
  unfold lookup_property, lookup_from.
  destruct (find_property (length h) h l k) eqn:Hf; [|discriminate].
  intros _. eapply find_property_allocated; eauto.
Qed.

(** ** The assignment of a data property *)

Section DataPut.
Context (h : heap) (c : loc) (k : string) (v : val) (o : obj).
Hypothesis Hc : h !! c = Some o.

Let h' : heap := <[c := with_props o (own_put k (Data v true) (props o))]> h.

Lemma data_put_length : length h' = length h.
Proof. apply length_insert. Qed.

Lemma data_put_lookup l :
  h' !! l = (fun o' => if decide (l = c)
                       then with_props o' (own_put k (Data v true) (props o'))
                       else o') <$> h !! l.
Proof.
  unfold h'. destruct (decide (l = c)) as [->|Hne].
  - rewrite list_lookup_insert_eq by (eapply lookup_lt_Some; eauto).
    now rewrite Hc.
  - rewrite list_lookup_insert_ne by congruence.
    destruct (h !! l); reflexivity.
Qed.

(** An assignment to [k] is invisible to the walks for any other key. *)
Lemma data_put_find_ne n l k' :
  k' <> k -> find_property n h' l k' = find_property n h l k'.
Proof.
  intros Hne. revert l. induction n as [|n IH]; intros l; [reflexivity|].
  simpl. rewrite data_put_lookup.
  destruct (h !! l) as [o'|]; simpl; [|reflexivity].
  destruct (decide (l = c)); simpl.
  - rewrite own_put_ne by assumption.
    destruct (own k' (props o')); [reflexivity|].
    destruct (proto o'); [apply IH | reflexivity].
  - destruct (own k' (props o')); [reflexivity|].
    destruct (proto o'); [apply IH | reflexivity].
Qed.

(** The assigned object itself now owns [k]. *)
Lemma data_put_find_eq n :
  find_property (S n) h' c k = Some (Some (Data v true)).
Proof.
  simpl. rewrite data_put_lookup, Hc. simpl.
  rewrite decide_True by reflexivity. simpl. now rewrite own_put_eq.
Qed.

(** A walk for [k] that gave something else than the walk for [k] from
    the assigned object did not go through that object, and is
    unchanged. *)
Lemma data_put_find_other n m l r rc :
  find_property n h l k = Some r ->
  find_property m h c k = Some rc ->
  r <> rc ->
  find_property n h' l k = Some r.
Proof.
  intros Hl Hfc Hne. revert l Hl.
  induction n as [|n IH]; intros l Hl; [discriminate|].
  destruct (decide (l = c)) as [->|Hlc].
  { exfalso. apply Hne. eapply find_property_det; eauto. }
  simpl in *. rewrite data_put_lookup.
  destruct (h !! l) as [o'|]; simpl; [|discriminate].
  rewrite decide_False by assumption.
  destruct (own k (props o')); [assumption|].
  destruct (proto o'); [|assumption]. now apply IH.
Qed.

(** An assignment to an object that is not on the chain of [l] is
    invisible to the walks from [l]. *)
Lemma data_put_find_off_chain n l k' :
  on_chain n h' l c = false ->
  find_property n h' l k' = find_property n h l k'.
Proof.
  revert l. induction n as [|n IH]; intros l Hoc; [reflexivity|].
  simpl in *. apply orb_false_iff in Hoc as [Hlc Hoc].
  apply Nat.eqb_neq in Hlc.
  rewrite data_put_lookup in *.
  destruct (h !! l) as [o'|]; simpl in *; [|reflexivity].
  rewrite decide_False in * by assumption.
  destruct (own k' (props o')); [reflexivity|].
  destruct (proto o'); [apply IH; assumption | reflexivity].
Qed.

(** Prototype links and what is callable are not assigned to. *)
Lemma data_put_chain_ends n l : chain_ends n h' l = chain_ends n h l.
Proof.
  revert l. induction n as [|n IH]; intros l; [reflexivity|].
  simpl. rewrite data_put_lookup.
  destruct (h !! l) as [o'|]; simpl; [|reflexivity].
  destruct (decide (l = c)); simpl; destruct (proto o'); auto.
Qed.

Lemma data_put_proto_value l : proto_value h' l = proto_value h l.
Proof.
  unfold proto_value. rewrite data_put_lookup.
  destruct (h !! l) as [o1|]; simpl; [|reflexivity].
  assert (proto (if decide (l = c)
                 then with_props o1 (own_put k (Data v true) (props o1))
                 else o1) = proto o1) as -> by (now destruct (decide (l = c))).
  destruct (proto o1) as [l'|]; [|reflexivity].
  rewrite data_put_lookup.
  destruct (h !! l') as [o2|]; simpl; [|reflexivity].
  now destruct (decide (l' = c)).
Qed.

Lemma data_put_read l p : read_property h' l p = read_property h l p.
Proof. destruct p; simpl; auto using data_put_proto_value. Qed.

Lemma data_put_lookup_ne l k' :
  k' <> k -> lookup_property h' l k' = lookup_property h l k'.
Proof.
  intros Hne. unfold lookup_property, lookup_from.
  rewrite data_put_length, data_put_find_ne by assumption.
  destruct (find_property (length h) h l k') as [[p|]|]; auto.
  now rewrite data_put_read.
Qed.

Lemma data_put_lookup_off_chain l k' :
  on_chain (length h') h' l c = false ->
  lookup_property h' l k' = lookup_property h l k'.
Proof.
  intros Hoc. unfold lookup_property, lookup_from.
  rewrite data_put_find_off_chain by assumption. rewrite data_put_length.
  destruct (find_property (length h) h l k') as [[p|]|]; auto.
  now rewrite data_put_read.
Qed.

Lemma data_put_lookup_eq : lookup_property h' c k = Some (Some v).
Proof.
  unfold lookup_property, lookup_from. rewrite data_put_length.
  pose proof (lookup_lt_Some _ _ _ Hc).
  destruct (length h) as [|n]; [lia|]. now rewrite data_put_find_eq.
Qed.

(** A read of [k] that found a value survives, when the walk for [k]
    from the assigned object found nothing, or a data property with
    another value. *)
Lemma data_put_lookup_other l x rc :
  lookup_property h l k = Some (Some x) ->
  find_property (length h) h c k = Some rc ->
  (forall w, rc <> Some (Data x w)) -> rc <> Some ProtoAccessor ->
  lookup_property h' l k = Some (Some x).
Proof.
  intros Hl Hfc Hd Ha.
  apply lookup_property_Some in Hl as (p & Hf & Hr).
  unfold lookup_property, lookup_from. rewrite data_put_length.
  rewrite (data_put_find_other _ _ _ _ _ Hf Hfc).
  - now rewrite data_put_read, Hr.
  - intros <-. destruct p as [y w|]; [|now apply Ha].
    simpl in Hr. injection Hr as ->. now apply (Hd w).
Qed.
End DataPut.

(** ** Chains that end *)

Lemma chain_ends_mono n m h l :
  chain_ends n h l = true -> n <= m -> chain_ends m h l = true.
Proof.
  revert m l. induction n as [|n IH]; intros m l Hc Hle; [discriminate|].
  destruct m as [|m]; [lia|]. simpl in *.
  destruct (h !! l) as [o|]; [|discriminate].
  destruct (proto o); [|reflexivity]. apply IH; [assumption | lia].
Qed.

Lemma chain_ends_app n h h2 l :
  chain_ends n h l = true -> chain_ends n (h ++ h2) l = true.
Proof.
  revert l. induction n as [|n IH]; intros l Hc; [discriminate|].
  simpl in *. destruct (h !! l) as [o|] eqn:Hl; [|discriminate].
  rewrite (lookup_app_l_Some _ _ _ _ Hl).
  destruct (proto o); [now apply IH | reflexivity].
Qed.

(** The locations a chain goes through, when it ends, are pairwise
    distinct and allocated: there are no more of them than objects in
    the store. *)
Lemma chain_ends_distinct n h l :
  chain_ends n h l = true ->
  exists L : list loc,
    List.NoDup L /\
    (forall x, In x L -> x < length h /\ chain_ends (length L) h x = true) /\
    chain_ends (length L) h l = true.
Proof.
  revert l. induction n as [|n IH]; intros l Hc; [discriminate|].
  simpl in Hc. destruct (h !! l) as [o|] eqn:Hl; [|discriminate].
  pose proof (lookup_lt_Some _ _ _ Hl) as Hlt.
  destruct (proto o) as [l'|] eqn:Hp.
  - destruct (IH l' Hc) as (L & Hnd & HL & Hl').
    destruct (chain_ends (length L) h l) eqn:E; [now exists L|].
    assert (chain_ends (S (length L)) h l = true) as Hl1
      by (simpl; now rewrite Hl, Hp).
    exists (l :: L). split; [|split; [|exact Hl1]].
    + constructor; [|assumption]. intros Hin.
      destruct (HL l Hin) as [_ Ht]. congruence.
    + intros x [<-|Hin]; [auto|]. destruct (HL x Hin) as [Hx Hcx].
      split; [assumption|]. eapply chain_ends_mono; [eassumption|simpl; lia].
  - exists [l]. split; [repeat constructor; intros []|].
    assert (chain_ends 1 h l = true) as H1 by (simpl; now rewrite Hl, Hp).
    split; [|exact H1]. intros x [<-|[]]. auto.
Qed.

(** So a walk with as much fuel as there are objects in the store
    reaches the end of every chain that has one. *)
Lemma chain_ends_within_store n h l :
  chain_ends n h l = true -> chain_ends (length h) h l = true.
Proof.
  intros Hc. destruct (chain_ends_distinct _ _ _ Hc) as (L & Hnd & HL & Hl).
  eapply chain_ends_mono; [exact Hl|].
  assert (length L <= length (seq 0 (length h))) as Hle.
  { apply List.NoDup_incl_length; [assumption|].
    intros x Hx. apply in_seq. destruct (HL x Hx). lia. }
  now rewrite List.length_seq in Hle.
Qed.

(** On a chain that ends, the walk gives an answer. *)
Lemma chain_ends_find n h l k :
  chain_ends n h l = true -> exists r, find_property n h l k = Some r.
Proof.
  revert l. induction n as [|n IH]; intros l Hc; [discriminate|].
  simpl in *. destruct (h !! l) as [o|]; [|discriminate].
  destruct (own k (props o)); [eauto|].
  destruct (proto o); [now apply IH | eauto].
Qed.

(** ** A change of prototype *)

Section ProtoChange.
Context (h : heap) (c : loc) (o : obj) (np : option loc).
Hypothesis Hc : h !! c = Some o.

Let h' : heap := <[c := with_proto o np]> h.

Lemma proto_change_length : length h' = length h.
Proof. apply length_insert. Qed.

Lemma proto_change_lookup l :
  h' !! l = (fun o' => if decide (l = c) then with_proto o' np else o')
            <$> h !! l.
Proof.
  unfold h'. destruct (decide (l = c)) as [->|Hne].
  - rewrite list_lookup_insert_eq by (eapply lookup_lt_Some; eauto).
    now rewrite Hc.
  - rewrite list_lookup_insert_ne by congruence.
    destruct (h !! l); reflexivity.
Qed.

(** A chain that got a continuation where it used to end: what was
    found is still found. *)
Lemma proto_link_find n l k p :
  proto o = None ->
  find_property n h l k = Some (Some p) ->
  find_property n h' l k = Some (Some p).
Proof.
  intros Hnone. revert l. induction n as [|n IH]; intros l Hf; [discriminate|].
  simpl in *. rewrite proto_change_lookup.
  destruct (h !! l) as [o'|] eqn:Hl; simpl; [|discriminate].
  destruct (decide (l = c)) as [->|Hne]; simpl.
  - assert (o' = o) as -> by congruence.
    rewrite Hnone in Hf. destruct (own k (props o)); [assumption|discriminate].
  - destruct (own k (props o')); [assumption|].
    destruct (proto o'); [now apply IH | discriminate].
Qed.

Lemma proto_change_proto_value l :
  l <> c -> proto_value h' l = proto_value h l.
Proof.
  intros Hne. unfold proto_value. rewrite proto_change_lookup.
  destruct (h !! l) as [o1|]; simpl; [|reflexivity].
  rewrite decide_False by assumption.
  destruct (proto o1) as [l'|]; [|reflexivity].
  rewrite proto_change_lookup.
  destruct (h !! l') as [o2|]; simpl; [|reflexivity].
  now destruct (decide (l' = c)).
Qed.

Lemma proto_link_preserved : proto o = None -> preserved_but None h h'.
Proof.
  intros Hnone l k x _ Hl Hx.
  apply lookup_property_Some in Hl as (p & Hf & Hr).
  unfold lookup_property, lookup_from. rewrite proto_change_length.
  rewrite (proto_link_find _ _ _ _ Hnone Hf).
  destruct p as [y w|]; simpl in *; [now rewrite Hr|].
  destruct (decide (l = c)) as [->|Hne].
  - unfold proto_value in Hr. rewrite Hc, Hnone in Hr.
    injection Hr as <-. discriminate.
  - now rewrite proto_change_proto_value, Hr.
Qed.

(** The chain of an object that is cut from its prototype ends. *)
Lemma proto_cut_chain_ends n l :
  np = None -> chain_ends n h l = true -> chain_ends n h' l = true.
Proof.
  intros Hnp. revert l. induction n as [|n IH]; intros l Hl; [discriminate|].
  simpl in *. rewrite proto_change_lookup.
  destruct (h !! l) as [o'|]; simpl; [|discriminate].
  destruct (decide (l = c)); simpl; [now rewrite Hnp|].
  destruct (proto o'); [now apply IH | reflexivity].
Qed.

(** A chain that does not go through the changed object is the same. *)
Lemma proto_change_chain_off n l :
  on_chain n h l c = false -> chain_ends n h l = true ->
  chain_ends n h' l = true.
Proof.
  revert l. induction n as [|n IH]; intros l Hoc Hl; [discriminate|].
  simpl in *. apply orb_false_iff in Hoc as [Hlc Hoc].
  apply Nat.eqb_neq in Hlc. rewrite proto_change_lookup.
  destruct (h !! l) as [o'|]; simpl; [|discriminate].
  rewrite decide_False by assumption.
  destruct (proto o'); [now apply IH | reflexivity].
Qed.

(** Once the chain of the changed object ends, every chain that ended
    before still does, possibly through the changed object. *)
Lemma proto_change_chain_through m n l :
  chain_ends n h' c = true ->
  chain_ends m h l = true -> chain_ends (m + n) h' l = true.
Proof.
  intros Hcn. revert l. induction m as [|m IH]; intros l Hl; [discriminate|].
  destruct (decide (l = c)) as [->|Hne].
  { eapply chain_ends_mono; [eassumption | lia]. }
  simpl in *. rewrite proto_change_lookup.
  destruct (h !! l) as [o'|]; simpl; [|discriminate].
  rewrite decide_False by assumption.
  destruct (proto o'); [now apply IH | reflexivity].
Qed.
End ProtoChange.

(** ** Inversion of the assignment *)

Lemma define_own_Ok h l k v h' :
  define_own h l k v = Some (inr h') ->
  exists o, h !! l = Some o /\
    (own k (props o) <> None \/ extensible o = true) /\
    h' = <[l := with_props o (own_put k (Data v true) (props o))]> h.
Proof.
  unfold define_own. destruct (h !! l) as [o|]; [|discriminate].
  intros H. exists o. split; [reflexivity|].
  destruct (own k (props o)) eqn:Eo.
  - injection H as <-. split; [left; discriminate | reflexivity].
  - destruct (extensible o) eqn:Ex; [|discriminate].
    injection H as <-. split; [now right | reflexivity].
Qed.

Lemma define_own_refusal h l k v e :
  define_own h l k v = Some (inl e) -> e = not_extensible_error.
Proof.
  unfold define_own. destruct (h !! l) as [o|]; [|discriminate].
  destruct (own k (props o)); [discriminate|].
  destruct (extensible o); [discriminate|]. now intros [= <-].
Qed.

Lemma change_prototype_Ok h l np h' :
  change_prototype h l np = Some (inr h') ->
  exists o, h !! l = Some o /\
    ((proto o = np /\ h' = h) \/
     (proto o <> np /\ h' = <[l := with_proto o np]> h /\
      forall p, np = Some p ->
                chain_ends (length h) h p = true /\
                on_chain (length h) h p l = false)).
Proof.
  unfold change_prototype. destruct (h !! l) as [o|]; [|discriminate].
  intros H. exists o. split; [reflexivity|].
  destruct (decide (proto o = np)) as [E|E]; [left; now injection H as <-|].
  right. split; [assumption|].
  destruct (l =? object_prototype)%nat; [discriminate|].
  destruct (negb (extensible o)); [discriminate|].
  destruct np as [p|].
  - destruct (chain_ends (length h) h p) eqn:Ec; [|discriminate].
    destruct (on_chain (length h) h p l) eqn:Eo; [discriminate|].
    injection H as <-. split; [reflexivity|]. now intros ? [= <-].
  - injection H as <-. split; [reflexivity|]. discriminate.
Qed.

Lemma change_prototype_refusal h l np e :
  change_prototype h l np = Some (inl e) -> refusal e.
Proof.
  unfold change_prototype, refusal. destruct (h !! l) as [o|]; [|discriminate].
  destruct (decide (proto o = np)); [discriminate|].
  destruct (l =? object_prototype)%nat; [intros [= <-]; auto|].
  destruct (negb (extensible o)); [intros [= <-]; auto|].
  destruct np as [p|]; [|discriminate].
  destruct (chain_ends (length h) h p); [|discriminate].
  destruct (on_chain (length h) h p l); [intros [= <-]; auto|discriminate].
Qed.

(** The setter changes the prototype to what the value refers to, or
    leaves the store alone. *)
Lemma set_prototype_Ok h l v h' :
  set_prototype h l v = Some (inr h') ->
  h' = h \/
  exists o, h !! l = Some o /\ proto o <> ref_of v /\
    h' = <[l := with_proto o (ref_of v)]> h /\
    forall p, ref_of v = Some p ->
              chain_ends (length h) h p = true /\
              on_chain (length h) h p l = false.
Proof.
  destruct v; simpl; try (intros [= <-]; now left);
    intros H; apply change_prototype_Ok in H as (o & Hl & [[_ ->]|(? & ? & ?)]);
    eauto 10.
Qed.

Lemma set_prototype_refusal h l v e :
  set_prototype h l v = Some (inl e) -> refusal e.
Proof. destruct v; simpl; try discriminate; apply change_prototype_refusal. Qed.

(** An assignment that is made is the assignment of a data property of
    the object itself, or a call of the setter. *)
Lemma put_property_Ok h l k v h' :
  put_property h l k v = Some (inr h') ->
  (find_property (length h) h l k <> Some (Some ProtoAccessor) /\
   exists o, h !! l = Some o /\
     (own k (props o) <> None \/ extensible o = true) /\
     h' = <[l := with_props o (own_put k (Data v true) (props o))]> h) \/
  (find_property (length h) h l k = Some (Some ProtoAccessor) /\
   set_prototype h l v = Some (inr h')).
Proof.
  unfold put_property.
  destruct (find_property (length h) h l k) as [[[x w|]|]|];
    try discriminate; [destruct w; try discriminate| |]; intros H;
    try (right; now split);
    left; (split; [discriminate|]); now apply define_own_Ok.
Qed.

Lemma put_property_refusal h l k v e :
  put_property h l k v = Some (inl e) -> refusal e.
Proof.
  unfold put_property.
  destruct (find_property (length h) h l k) as [[[x w|]|]|];
    try discriminate; [destruct w| |]; intros H.
  - apply define_own_refusal in H as ->. unfold refusal. auto.
  - injection H as <-. unfold refusal. auto.
  - eapply set_prototype_refusal; eauto.
  - apply define_own_refusal in H as ->. unfold refusal. auto.
Qed.

Lemma put_property_length h l k v h' :
  put_property h l k v = Some (inr h') -> length h' = length h.
Proof.
  intros H. apply put_property_Ok in H as [(_ & o & _ & _ & ->)|(_ & H)].
  - apply length_insert.
  - apply set_prototype_Ok in H as [->|(o & _ & _ & -> & _)];
      [reflexivity | apply length_insert].
Qed.

(** The errors of the language are not the error of [set]. *)
Lemma refusal_not_conflict e path :
  refusal e -> e <> TypeError (conflict_message path).
Proof.
  unfold refusal, conflict_message.
  intros [-> | [-> | [-> | ->]]]; discriminate.
Qed.

(** Whether an assignment of a data property is made does not depend on
    the value. *)
Lemma put_property_any_value h l k v1 v2 h1 o :
  h !! l = Some o ->
  find_property (length h) h l k <> Some (Some ProtoAccessor) ->
  put_property h l k v1 = Some (inr h1) ->
  put_property h l k v2
  = Some (inr (<[l := with_props o (own_put k (Data v2 true) (props o))]> h)).
Proof.
  intros Hl Hna. unfold put_property, define_own. rewrite Hl.
  destruct (find_property (length h) h l k) as [[[x w|]|]|];
    try discriminate; try congruence; try destruct w; try discriminate;
    destruct (own k (props o)); try reflexivity;
    destruct (extensible o); try reflexivity; discriminate.
Qed.

(** An own data property is what a read finds. *)
Lemma own_lookup_property h l o k x w :
  h !! l = Some o -> own k (props o) = Some (Data x w) ->
  lookup_property h l k = Some (Some x).
Proof.
  intros Hl Ho. pose proof (lookup_lt_Some _ _ _ Hl) as Hlt.
  unfold lookup_property, lookup_from.
  destruct (length h) as [|n]; [lia|]. simpl. now rewrite Hl, Ho.
Qed.

Lemma own_find_property n h l o k p :
  h !! l = Some o -> own k (props o) = Some p ->
  find_property (S n) h l k = Some (Some p).
Proof. intros Hl Ho. simpl. now rewrite Hl, Ho. Qed.

(** ** Reads that survive a run of [set] *)

Lemma preserved_refl e h : preserved_but e h h.
Proof. intros l k x _ H _. exact H. Qed.

Lemma preserved_trans e h1 h2 h3 :
  preserved_but e h1 h2 -> preserved_but e h2 h3 -> preserved_but e h1 h3.
Proof. intros H12 H23 l k x He Hl Hx. eauto. Qed.

Lemma preserved_weaken e h h' : preserved_but None h h' -> preserved_but e h h'.
Proof. intros H l k x _ Hl Hx. apply H; [discriminate | assumption..]. Qed.

Lemma preserved_alloc e h o : preserved_but e h (h ++ [o]).
Proof. intros l k x _ Hl _. now apply lookup_property_app. Qed.

Lemma preserved_data_final h c k v o :
  h !! c = Some o ->
  preserved_but (Some k) h
    (<[c := with_props o (own_put k (Data v true) (props o))]> h).
Proof.
  intros Hc l k' x Hne Hl _.
  rewrite data_put_lookup_ne; [assumption.. | congruence].
Qed.

Lemma preserved_data_nullish e h c k v o r :
  h !! c = Some o ->
  lookup_property h c k = Some r ->
  loose_eq_null (default VUndefined r) = true ->
  find_property (length h) h c k <> Some (Some ProtoAccessor) ->
  preserved_but e h
    (<[c := with_props o (own_put k (Data v true) (props o))]> h).
Proof.
  intros Hc Hr Hnull Hna l k' x _ Hl Hx.
  destruct (String.eqb_spec k' k) as [->|Hne].
  2:{ rewrite data_put_lookup_ne; assumption. }
  destruct (find_property (length h) h c k) as [rc|] eqn:Hf.
  2:{ unfold lookup_property, lookup_from in Hr. now rewrite Hf in Hr. }
  eapply data_put_lookup_other; eauto.
  - intros w ->. unfold lookup_property, lookup_from in Hr.
    rewrite Hf in Hr. simpl in Hr. injection Hr as <-. simpl in Hnull.
    congruence.
  - congruence.
Qed.

(** ** Inversion of the operators *)

Lemma object_like_inv v : object_like v = true -> exists l, v = VObj l.
Proof. destruct v; try discriminate. eauto. Qed.

Lemma object_like_not_null v : object_like v = true -> loose_eq_null v = false.
Proof. destruct v; try discriminate; reflexivity. Qed.

Lemma nullish_not_object_like x :
  loose_eq_null x = true -> object_like x = false.
Proof. destruct x; try discriminate; reflexivity. Qed.

Lemma js_get_Ret object key h x h' :
  js_get object key h = Ret x h' ->
  h' = h /\ exists l r, ref_of object = Some l /\
    lookup_property h l key = Some r /\ x = default VUndefined r.
Proof.
  unfold js_get. destruct object; try discriminate;
    (destruct (lookup_property h l key) as [r|] eqn:E; [|discriminate]);
    intros [= <- <-]; eauto 10.
Qed.

Lemma js_get_Throw object key h e h' :
  js_get object key h = Throw e h' -> h' = h /\ ref_of object = None.
Proof.
  unfold js_get. destruct object; try discriminate;
    try (destruct (lookup_property h l key); discriminate);
    intros [= <- <-]; auto.
Qed.

Lemma js_put_Ret object key v h u h' :
  js_put object key v h = Ret u h' ->
  exists l, ref_of object = Some l /\ put_property h l key v = Some (inr h').
Proof.
  unfold js_put. destruct object; try discriminate;
    (destruct (put_property h l key v) as [[e|h2]|] eqn:E; try discriminate);
    intros H; inversion H; subst; eauto.
Qed.

Lemma js_put_Throw object key v h e h' :
  js_put object key v h = Throw e h' ->
  h' = h /\
  (ref_of object = None \/
   exists l, ref_of object = Some l /\ put_property h l key v = Some (inl e)).
Proof.
  unfold js_put. destruct object; try (intros [= <- <-]; now auto);
    (destruct (put_property h l key v) as [[e2|h2]|] eqn:E; try discriminate);
    intros [= <- <-]; eauto 10.
Qed.

(** ** The iterations of [get] *)

Lemma get_loop_found l key path h x :
  lookup_property h l key = Some (Some x) ->
  get_loop (VObj l) (key :: path) h = get_loop x path h.
Proof.
  intros Hl. destruct (lookup_property_Some _ _ _ _ Hl) as (p & Hf & _).
  simpl. unfold bind, js_in, js_get, safeCast.
  rewrite Hf. simpl. now rewrite Hl.
Qed.

Lemma get_loop_missing l key path h :
  lookup_property h l key = Some None ->
  get_loop (VObj l) (key :: path) h = Ret VUndefined h.
Proof.
  intros Hl. apply lookup_property_None in Hl.
  simpl. unfold bind, js_in, safeCast. now rewrite Hl.
Qed.

Lemma get_loop_not_object output key path h :
  object_like output = false ->
  get_loop output (key :: path) h = Ret VUndefined h.
Proof. intros Ho. simpl. now rewrite Ho. Qed.

Lemma js_in_Ret key object h b h' : js_in key object h = Ret b h' -> h' = h.
Proof.
  unfold js_in. destruct object; try discriminate;
    (destruct (find_property (length h) h l key) as [[]|]; [| |discriminate]);
    now intros [= _ <-].
Qed.

Lemma get_loop_app output q r h :
  get_loop output (q ++ r) h
  = (let! x := get_loop output q in get_loop x r) h.
Proof.
  revert output. induction q as [|k q IH]; intros output; [reflexivity|].
  simpl. destruct (object_like output); [|now destruct r].
  unfold bind in *.
  destruct (js_in k (safeCast output) h) as [[] h1|e h1|] eqn:Ein;
    try reflexivity; [|now destruct r].
  apply js_in_Ret in Ein as ->.
  destruct (js_get (safeCast output) k h) as [x h2|e h2|] eqn:Eg;
    try reflexivity.
  apply js_get_Ret in Eg as (-> & _). apply IH.
Qed.

(** [get] neither throws nor changes the store. *)
Lemma get_loop_pure output path h :
  match get_loop output path h with
  | Ret _ h' => h' = h
  | Throw _ _ => False
  | Stuck => True
  end.
Proof.
  revert output. induction path as [|k path IH]; intros output; [reflexivity|].
  simpl. destruct (object_like output) eqn:Eo; [|reflexivity].
  apply object_like_inv in Eo as [l ->].
  unfold bind, js_in, js_get, safeCast.
  destruct (find_property (length h) h l k) as [[p|]|] eqn:E; simpl; auto.
  destruct (lookup_property h l k) as [r|]; simpl; auto. apply IH.
Qed.

(** A traversal that ends in an object went through objects only. *)
Lemma get_loop_Ret_obj x q h c h' :
  get_loop x q h = Ret (VObj c) h' -> object_like x = true.
Proof.
  destruct q as [|k q]; simpl.
  - intros [= -> _]. reflexivity.
  - destruct (object_like x); [reflexivity | discriminate].
Qed.

Lemma get_loop_cons_Ret l k q h y h' :
  get_loop (VObj l) (k :: q) h = Ret y h' ->
  (lookup_property h l k = Some None /\ y = VUndefined) \/
  (exists x, lookup_property h l k = Some (Some x) /\
             get_loop x q h = Ret y h').
Proof.
  simpl. unfold bind, js_in, js_get, safeCast.
  destruct (find_property (length h) h l k) as [[p|]|] eqn:E; simpl;
    try discriminate.
  - unfold lookup_property, lookup_from. rewrite E.
    destruct (read_property h l p) as [x|]; simpl; [eauto|discriminate].
  - intros [= <- _]. left. split; [|reflexivity].
    now apply lookup_property_None.
Qed.

(** ** The two shapes of an iteration of [set] *)

Lemma set_loop_last path object key v :
  set_loop path object [key] v = js_put object key v.
Proof. reflexivity. Qed.

Lemma set_loop_step path object key rest v :
  rest <> [] ->
  set_loop path object (key :: rest) v =
  (let! value := js_get object key in
   if object_like value then set_loop path (safeCast value) rest v
   else if loose_eq_null value then
     let! newValue := new_object in
     let! _ := js_put object key newValue in
     set_loop path newValue rest v
   else throw (TypeError (conflict_message path))).
Proof. destruct rest; [congruence | reflexivity]. Qed.

Lemma snoc_not_nil {A} (q : list A) k : q ++ [k] <> [].
Proof. destruct q; discriminate. Qed.

(** The loop is the walk over all names but the last, then the
    assignment of the last. *)
Lemma set_loop_descend path q k object v h :
  set_loop path object (q ++ [k]) v h
  = (let! container := descend path object q in js_put container k v) h.
Proof.
  revert object h. induction q as [|k1 q IH]; intros object h.
  - reflexivity.
  - change ((k1 :: q) ++ [k]) with (k1 :: (q ++ [k])).
    rewrite set_loop_step by apply snoc_not_nil. simpl descend.
    unfold step, bind, ret, throw in *.
    destruct (js_get object k1 h) as [value h0|e h0|]; try reflexivity.
    destruct (object_like value); [apply IH|].
    destruct (loose_eq_null value); [|reflexivity].
    destruct (new_object h0) as [c h1|e h1|]; try reflexivity.
    destruct (js_put object k1 c h1) as [u h2|e h2|]; try reflexivity.
    apply IH.
Qed.

(** ** One iteration of the walk *)

(** A read through the accessor that gives [null]: the object has no
    prototype, and the accessor is its own. *)
Lemma lookup_accessor_nullish h l o k r :
  h !! l = Some o ->
  find_property (length h) h l k = Some (Some ProtoAccessor) ->
  lookup_property h l k = Some r ->
  loose_eq_null (default VUndefined r) = true ->
  proto o = None /\ own k (props o) = Some ProtoAccessor.
Proof.
  intros Hl Hf Hr Hnull.
  assert (proto o = None) as Hnone.
  { unfold lookup_property, lookup_from in Hr. rewrite Hf in Hr. simpl in Hr.
    unfold proto_value in Hr. rewrite Hl in Hr.
    destruct (proto o) as [l'|]; [|reflexivity].
    destruct (h !! l') as [o'|]; [|discriminate].
    injection Hr as <-. simpl in Hnull. now destruct (callable o'). }
  split; [assumption|].
  destruct (length h) as [|n]; [discriminate|]. simpl in Hf.
  rewrite Hl, Hnone in Hf.
  destruct (own k (props o)) as [p|]; [congruence | discriminate].
Qed.

(** What a successful iteration establishes: it entered the object that
    was there, or it created one and made it the value of the name, by
    the assignment of a data property or by the setter of the accessor
    that the name resolves to. *)
Lemma step_Ret path l k h c ha :
  step path (VObj l) k h = Ret c ha ->
  exists l1, c = VObj l1 /\
    lookup_property ha l k = Some (Some (VObj l1)) /\
    preserved_but None h ha /\
    ((ha = h /\ lookup_property h l k = Some (Some (VObj l1))) \/
     (exists r o, lookup_property h l k = Some r /\
        loose_eq_null (default VUndefined r) = true /\
        h !! l = Some o /\ l1 = length h /\
        ((own k (props o) <> Some ProtoAccessor /\
          ha = <[l := with_props o
                         (own_put k (Data (VObj (length h)) true) (props o))]>
                 (h ++ [empty_object])) \/
         (own k (props o) = Some ProtoAccessor /\ proto o = None /\
          ha = <[l := with_proto o (Some (length h))]>
                 (h ++ [empty_object]))))).
Proof.
  unfold step, bind, ret, throw. intros Hs.
  destruct (js_get (VObj l) k h) as [value h0|e h0|] eqn:Eg; try discriminate.
  apply js_get_Ret in Eg as (-> & l' & r & [= <-] & Hr & ->).
  destruct (object_like (default VUndefined r)) eqn:Eo.
  - injection Hs as <- <-. destruct (object_like_inv _ Eo) as [l1 E1].
    destruct r as [x|]; [|discriminate]. simpl in E1. subst x.
    exists l1. unfold safeCast. simpl.
    repeat split; auto using preserved_refl.
  - destruct (loose_eq_null (default VUndefined r)) eqn:En; [|discriminate].
    unfold new_object in Hs.
    set (h1 := h ++ [empty_object]) in *.
    destruct (js_put (VObj l) k (VObj (length h)) h1) as [u h2|e h2|] eqn:Ep;
      try discriminate.
    injection Hs as <- <-.
    apply js_put_Ret in Ep as (l' & [= <-] & Hput).
    pose proof (lookup_property_allocated _ _ _ _ Hr) as Hlt.
    destruct (lookup_lt_is_Some_2 h l Hlt) as [o Hl].
    assert (h1 !! l = Some o) as Hl1
      by (unfold h1; now rewrite (lookup_app_l_Some _ _ _ _ Hl)).
    assert (lookup_property h1 l k = Some r) as Hr1
      by (now apply lookup_property_app).
    assert (length h1 = S (length h)) as Hlen1
      by (unfold h1; rewrite length_app; simpl; lia).
    exists (length h). split; [reflexivity|].
    apply put_property_Ok in Hput
      as [(Hna & o' & Hl1' & _ & ->)|(Hfa & Hsp)].
    + assert (o' = o) as -> by congruence.
      split; [exact (data_put_lookup_eq h1 l k _ o Hl1)|]. split.
      * eapply preserved_trans; [apply preserved_alloc|].
        eapply preserved_data_nullish; eauto.
      * right. exists r, o. repeat split; auto. left. split; [|reflexivity].
        intros Ho. apply Hna. rewrite Hlen1.
        eapply own_find_property; eauto.
    + destruct (lookup_accessor_nullish _ _ _ _ _ Hl1 Hfa Hr1 En)
        as [Hnone Hown].
      simpl in Hsp. apply change_prototype_Ok in Hsp as (o' & Hl1' & Hch).
      assert (o' = o) as -> by congruence.
      destruct Hch as [[Hp _]|(_ & -> & _)]; [congruence|].
      assert ((<[l := with_proto o (Some (length h))]> h1) !! length h
              = Some empty_object) as Hnew.
      { rewrite list_lookup_insert_ne by lia. unfold h1.
        rewrite lookup_app_r by lia. now rewrite Nat.sub_diag. }
      split; [|split].
      * unfold lookup_property, lookup_from.
        rewrite length_insert, Hlen1. simpl.
        rewrite list_lookup_insert_eq by (rewrite Hlen1; lia). simpl.
        rewrite Hown. simpl. unfold proto_value.
        rewrite list_lookup_insert_eq by (rewrite Hlen1; lia). simpl.
        now rewrite Hnew.
      * eapply preserved_trans; [apply preserved_alloc|].
        now apply proto_link_preserved.
      * right. exists r, o. repeat split; auto.
Qed.

(** An iteration throws the conflict error, on a value that is neither
    object-like nor nullish and with the store as it found it, or the
    error of the assignment of the object it has just created. *)
Lemma step_Throw path l k h e ha :
  step path (VObj l) k h = Throw e ha ->
  (ha = h /\ e = TypeError (conflict_message path) /\
   exists x, lookup_property h l k = Some (Some x) /\
     object_like x = false /\ loose_eq_null x = false) \/
  (ha = h ++ [empty_object] /\ refusal e /\
   exists r, lookup_property h l k = Some r /\
     loose_eq_null (default VUndefined r) = true /\
     put_property (h ++ [empty_object]) l k (VObj (length h)) = Some (inl e)).
Proof.
  unfold step, bind, ret, throw. intros Hs.
  destruct (js_get (VObj l) k h) as [value h0|e0 h0|] eqn:Eg; try discriminate.
  2:{ apply js_get_Throw in Eg as [_ [=]]. }
  apply js_get_Ret in Eg as (-> & l' & r & [= <-] & Hr & ->).
  destruct (object_like (default VUndefined r)) eqn:Eo; [discriminate|].
  destruct (loose_eq_null (default VUndefined r)) eqn:En.
  - unfold new_object in Hs.
    destruct (js_put (VObj l) k (VObj (length h)) (h ++ [empty_object]))
      as [u h2|e2 h2|] eqn:Ep; try discriminate.
    injection Hs as <- <-.
    apply js_put_Throw in Ep as [-> [[=]|(l' & [= <-] & Hput)]].
    right. split; [reflexivity|].
    split; [eapply put_property_refusal; eauto|]. eauto.
  - injection Hs as <- <-. left. repeat split.
    destruct r as [x|]; [|discriminate]. eauto.
Qed.

Lemma step_length path l k h c ha :
  step path (VObj l) k h = Ret c ha ->
  length h <= length ha /\ length ha <= S (length h).
Proof.
  intros Hs. apply step_Ret in Hs as (l1 & _ & _ & _ & [[-> _]|Hc]); [lia|].
  destruct Hc as (r & o & _ & _ & _ & _ & [[_ ->]|(_ & _ & ->)]);
    rewrite length_insert, length_app; simpl; lia.
Qed.

(** ** The walk *)

Lemma descend_cons path container k q h :
  descend path container (k :: q) h
  = (let! next := step path container k in descend path next q) h.
Proof. reflexivity. Qed.

Lemma descend_app path container q r h :
  descend path container (q ++ r) h
  = (let! c := descend path container q in descend path c r) h.
Proof.
  revert container h. induction q as [|k q IH]; intros container h;
    [reflexivity|].
  simpl. unfold bind in *.
  destruct (step path container k h); try reflexivity. apply IH.
Qed.

Lemma descend_Ret path q l h c h1 :
  descend path (VObj l) q h = Ret c h1 ->
  (exists lc, c = VObj lc) /\ preserved_but None h h1 /\
  get_loop (VObj l) q h1 = Ret c h1.
Proof.
  revert l h. induction q as [|k q IH]; intros l h Hd.
  - injection Hd as <- <-. eauto using preserved_refl.
  - rewrite descend_cons in Hd. unfold bind in Hd.
    destruct (step path (VObj l) k h) as [next ha|e ha|] eqn:Es;
      try discriminate.
    apply step_Ret in Es as (l1 & -> & Hl1 & Hpa & _).
    destruct (IH _ _ Hd) as (Hc & Hp1 & Hg).
    split; [assumption|]. split; [eapply preserved_trans; eauto|].
    rewrite (get_loop_found _ _ _ _ (VObj l1)); [assumption|].
    apply Hp1; [discriminate | assumption | reflexivity].
Qed.

Lemma descend_length path q l h c h1 :
  descend path (VObj l) q h = Ret c h1 ->
  length h <= length h1 /\ length h1 <= length h + length q.
Proof.
  revert l h. induction q as [|k q IH]; intros l h Hd.
  - injection Hd as <- <-. simpl. lia.
  - rewrite descend_cons in Hd. unfold bind in Hd.
    destruct (step path (VObj l) k h) as [next ha|e ha|] eqn:Es;
      try discriminate.
    pose proof (step_length _ _ _ _ _ _ Es).
    destruct (step_Ret _ _ _ _ _ _ Es) as (l1 & -> & _).
    apply IH in Hd. simpl. lia.
Qed.

(** The walk throws where it is blocked, with the conflict error and the
    store it had produced by then, or where the assignment of a new
    object is refused, with the error of that assignment. *)
Lemma descend_Throw path q l h exn h' :
  descend path (VObj l) q h = Throw exn h' ->
  (exn = TypeError (conflict_message path) /\ blocked path l q h h') \/
  (refusal exn /\
   exists q1 k1 q2 c h1,
     q = q1 ++ k1 :: q2 /\
     descend path (VObj l) q1 h = Ret (VObj c) h1 /\
     step path (VObj c) k1 h1 = Throw exn h' /\
     h' = h1 ++ [empty_object]).
Proof.
  revert l h. induction q as [|k q IH]; intros l h Hd; [discriminate|].
  rewrite descend_cons in Hd. unfold bind in Hd.
  destruct (step path (VObj l) k h) as [next ha|e ha|] eqn:Es;
    try discriminate.
  - destruct (step_Ret _ _ _ _ _ _ Es) as (l1 & -> & _).
    destruct (IH _ _ Hd)
      as [(-> & q1 & k1 & q2 & c & x & -> & Hd1 & Hx)
         |(Hr & q1 & k1 & q2 & c & h1 & -> & Hd1 & Hs1 & ->)].
    + left. split; [reflexivity|].
      exists (k :: q1), k1, q2, c, x. split; [reflexivity|].
      split; [|exact Hx]. rewrite descend_cons. unfold bind. now rewrite Es.
    + right. split; [assumption|].
      exists (k :: q1), k1, q2, c, h1. split; [reflexivity|].
      split; [|auto]. rewrite descend_cons. unfold bind. now rewrite Es.
  - injection Hd as <- <-.
    destruct (step_Throw _ _ _ _ _ _ Es)
      as [(-> & -> & x & Hx & Ho & Hn)|(-> & Hr & _)].
    + left. split; [reflexivity|].
      exists [], k, q, l, x. repeat split; auto.
      unfold js_get. now rewrite Hx.
    + right. split; [assumption|]. exists [], k, q, l, h. auto.
Qed.

Lemma blocked_descend_Throw path q l h h' :
  blocked path l q h h' ->
  descend path (VObj l) q h = Throw (TypeError (conflict_message path)) h'.
Proof.
  intros (q1 & k1 & q2 & c & x & -> & Hd1 & Hg & Ho & Hn).
  rewrite descend_app. unfold bind at 1. rewrite Hd1.
  rewrite descend_cons. unfold bind, step, bind. rewrite Hg, Ho, Hn.
  reflexivity.
Qed.

(** ** Reading back what [set] wrote *)

Lemma descend_put_get_loop path k v q l h c h1 o :
  descend path (VObj l) q h = Ret (VObj c) h1 ->
  h1 !! c = Some o ->
  let h' := <[c := with_props o (own_put k (Data v true) (props o))]> h1 in
  (forall q1 q2 o1 h0, q = q1 ++ k :: q2 ->
     descend path (VObj l) q1 h = Ret (VObj o1) h0 ->
     on_chain (length h') h' o1 c = false) ->
  get_loop (VObj l) q h' = Ret (VObj c) h'.
Proof.
  intros Hd Hc h'. revert l h Hd. induction q as [|k1 q IH]; intros l h Hd Hsh.
  - injection Hd as <- <-. reflexivity.
  - rewrite descend_cons in Hd. unfold bind in Hd.
    destruct (step path (VObj l) k1 h) as [next ha|e ha|] eqn:Es;
      try discriminate.
    destruct (step_Ret _ _ _ _ _ _ Es) as (l1 & -> & Hl1 & _ & _).
    destruct (descend_Ret _ _ _ _ _ _ Hd) as (_ & Hp1 & _).
    rewrite (get_loop_found _ _ _ _ (VObj l1)).
    + apply (IH l1 ha Hd). intros q1 q2 o1 h0 -> Hd1.
      apply (Hsh (k1 :: q1) q2 o1 h0); [reflexivity|].
      rewrite descend_cons. unfold bind. now rewrite Es.
    + assert (lookup_property h1 l k1 = Some (Some (VObj l1))) as H1
        by (apply Hp1; [discriminate | assumption | reflexivity]).
      destruct (String.eqb_spec k1 k) as [->|Hne].
      * unfold h'. rewrite data_put_lookup_off_chain; [assumption.. |].
        apply (Hsh [] q l h); reflexivity.
      * unfold h'. rewrite data_put_lookup_ne; assumption.
Qed.

Lemma set_loop_container path q k l v h h' :
  unshadowed path q k l h h' ->
  data_target path q k l h ->
  set_loop path (VObj l) (q ++ [k]) v h = Ret tt h' ->
  exists c h1 o,
    descend path (VObj l) q h = Ret (VObj c) h1 /\
    h1 !! c = Some o /\
    find_property (length h1) h1 c k <> Some (Some ProtoAccessor) /\
    put_property h1 c k v = Some (inr h') /\
    h' = <[c := with_props o (own_put k (Data v true) (props o))]> h1 /\
    get_loop (VObj l) q h' = Ret (VObj c) h'.
Proof.
  intros Hsh Hdt Hset. rewrite set_loop_descend in Hset. unfold bind in Hset.
  destruct (descend path (VObj l) q h) as [c h1|e h1|] eqn:Ed; try discriminate.
  destruct (descend_Ret _ _ _ _ _ _ Ed) as ([lc ->] & _ & _).
  apply js_put_Ret in Hset as (l' & [= <-] & Hput).
  pose proof (Hdt lc h1 Ed) as Hna.
  destruct (put_property_Ok _ _ _ _ _ Hput)
    as [(_ & o & Hlc & _ & ->)|(Hfa & _)]; [|contradiction].
  exists lc, h1, o. repeat split; auto.
  apply (descend_put_get_loop _ _ _ _ _ _ _ _ _ Ed Hlc).
  intros q1 q2 o1 h0 Hq Hd1. eapply Hsh; eauto.
Qed.

Lemma set_loop_get_loop path q k l v h h' :
  unshadowed path q k l h h' ->
  data_target path q k l h ->
  set_loop path (VObj l) (q ++ [k]) v h = Ret tt h' ->
  get_loop (VObj l) (q ++ [k]) h' = Ret v h'.
Proof.
  intros Hsh Hdt Hset.
  destruct (set_loop_container _ _ _ _ _ _ _ Hsh Hdt Hset)
    as (c & h1 & o & _ & Hc & _ & _ & -> & Hg).
  rewrite get_loop_app. unfold bind. rewrite Hg.
  rewrite (get_loop_found _ _ _ _ v); [reflexivity|].
  exact (data_put_lookup_eq h1 c k v o Hc).
Qed.

Lemma unshadowed_fresh_name path q k e h h' :
  ~ In k q -> unshadowed path q k e h h'.
Proof.
  intros Hk q1 q2 o h0 c h1 -> _ _. exfalso. apply Hk.
  apply in_or_app. right. now left.
Qed.

(** ** Well-formed stores *)

Lemma heap_wf_iff h : heap_wf h = true <-> wf_prop h.
Proof.
  unfold heap_wf, wf_prop. rewrite andb_true_iff, !forallb_forall. split.
  - intros [Hv Hc]. split.
    + intros l o k v Hl Hin.
      apply list_elem_of_lookup_2, list_elem_of_In in Hl.
      specialize (Hv o Hl). rewrite forallb_forall in Hv.
      apply (Hv (k, v) Hin).
    + intros l Hl. apply Hc, in_seq. lia.
  - intros [Hv Hc]. split.
    + intros o Ho. apply forallb_forall. intros [k v] Hin.
      apply list_elem_of_In, list_elem_of_lookup_1 in Ho as [l Hl]. eauto.
    + intros l Hl. apply in_seq in Hl. apply Hc. lia.
Qed.

Lemma val_ok_mono h h' v :
  length h <= length h' -> val_ok h v = true -> val_ok h' v = true.
Proof.
  intros Hle. destruct v; simpl; auto; rewrite !Nat.ltb_lt; lia.
Qed.

Lemma property_ok_mono h h' p :
  length h <= length h' -> property_ok h p = true -> property_ok h' p = true.
Proof. destruct p; simpl; eauto using val_ok_mono. Qed.

(** The properties the walk finds are stored in some object. *)
Lemma find_property_In n h l k p :
  find_property n h l k = Some (Some p) ->
  exists l' o, h !! l' = Some o /\ In (k, p) (props o).
Proof.
  revert l. induction n as [|n IH]; intros l Hf; [discriminate|].
  simpl in Hf. destruct (h !! l) as [o|] eqn:Hl; [|discriminate].
  destruct (own k (props o)) as [y|] eqn:Ho.
  - injection Hf as ->. eauto using own_In.
  - destruct (proto o); [eauto | discriminate].
Qed.

Lemma chain_ends_proto n h l o l' :
  chain_ends n h l = true -> h !! l = Some o -> proto o = Some l' ->
  l' < length h.
Proof.
  destruct n as [|n]; [discriminate|]. simpl. intros Hc Hl Hp.
  rewrite Hl, Hp in Hc. destruct n as [|n]; [discriminate|]. simpl in Hc.
  destruct (h !! l') eqn:E; [|discriminate]. eapply lookup_lt_Some; eauto.
Qed.

Lemma wf_find h l k :
  wf_prop h -> l < length h ->
  exists r, find_property (length h) h l k = Some r.
Proof. intros [_ Hc] Hl. apply chain_ends_find. now apply Hc. Qed.

Lemma wf_proto_value h l :
  wf_prop h -> l < length h ->
  exists x, proto_value h l = Some x /\ val_ok h x = true.
Proof.
  intros [_ Hc] Hl. unfold proto_value.
  destruct (lookup_lt_is_Some_2 h l Hl) as [o Ho]. rewrite Ho.
  destruct (proto o) as [l'|] eqn:Hp; [|now exists VNull].
  pose proof (chain_ends_proto _ _ _ _ _ (Hc l Hl) Ho Hp) as Hl'.
  destruct (lookup_lt_is_Some_2 h l' Hl') as [o' Ho']. rewrite Ho'.
  eexists. split; [reflexivity|].
  destruct (callable o'); simpl; now apply Nat.ltb_lt.
Qed.

(** On a well-formed store every read has an answer, and a reference
    that is read is allocated. *)
Lemma wf_lookup h l k :
  wf_prop h -> l < length h ->
  exists r, lookup_property h l k = Some r /\
            val_ok h (default VUndefined r) = true.
Proof.
  intros Hwf Hl. destruct (wf_find h l k Hwf Hl) as [[p|] Hr].
  - unfold lookup_property, lookup_from. rewrite Hr.
    destruct p as [x w|]; simpl.
    + exists (Some x). split; [reflexivity|].
      apply find_property_In in Hr as (l' & o & Hl' & Hin).
      destruct Hwf as [Hv _]. apply (Hv _ _ _ _ Hl' Hin).
    + destruct (wf_proto_value h l Hwf Hl) as (x & -> & Hx). eauto.
  - exists None. split; [|reflexivity]. now apply lookup_property_None.
Qed.

Lemma wf_alloc h :
  wf_prop h -> object_prototype < length h ->
  wf_prop (h ++ [empty_object]).
Proof.
  intros [Hv Hc] H0. split.
  - intros l o k v Hl Hin.
    destruct (decide (l < length h)) as [Hlt|Hge].
    + rewrite lookup_app_l in Hl by assumption.
      eapply property_ok_mono; [|eauto]. rewrite length_app. lia.
    + rewrite lookup_app_r in Hl by lia.
      destruct (l - length h) as [|n]; simpl in Hl; [|discriminate].
      injection Hl as <-. destruct Hin.
  - intros l Hl. rewrite length_app in *. simpl in *.
    replace (length h + 1) with (S (length h)) by lia.
    destruct (decide (l < length h)) as [Hlt|Hge].
    + apply chain_ends_app. eapply chain_ends_mono; [apply Hc|]; lia.
    + assert (l = length h) as -> by lia. simpl.
      rewrite lookup_app_r by lia. rewrite Nat.sub_diag. simpl.
      apply chain_ends_app. now apply Hc.
Qed.

Lemma wf_data_put h c k v o :
  wf_prop h -> val_ok h v = true -> h !! c = Some o ->
  wf_prop (<[c := with_props o (own_put k (Data v true) (props o))]> h).
Proof.
  intros [Hv Hc] Hok Hl.
  pose proof (data_put_length h c k v o) as Hlen. split.
  - intros l o' k' p' Hl' Hin.
    rewrite (data_put_lookup h c k v o Hl l) in Hl'.
    destruct (h !! l) as [o0|] eqn:Hl0; [|discriminate].
    simpl in Hl'. injection Hl' as <-.
    apply (property_ok_mono h); [lia|].
    destruct (decide (l = c)); simpl in Hin; [|eauto].
    apply own_put_In in Hin as [->|Hin]; eauto.
  - intros l Hlt. rewrite Hlen in *.
    rewrite (data_put_chain_ends h c k v o Hl). now apply Hc.
Qed.

Lemma wf_proto_change h c o np :
  wf_prop h -> h !! c = Some o ->
  (forall p, np = Some p ->
             chain_ends (length h) h p = true /\
             on_chain (length h) h p c = false) ->
  wf_prop (<[c := with_proto o np]> h).
Proof.
  intros [Hv Hc] Hl Hnp.
  pose proof (proto_change_length h c o np) as Hlen. split.
  - intros l o' k' p' Hl' Hin.
    rewrite (proto_change_lookup h c o np Hl l) in Hl'.
    destruct (h !! l) as [o0|] eqn:Hl0; [|discriminate].
    simpl in Hl'. injection Hl' as <-.
    apply (property_ok_mono h); [lia|].
    destruct (decide (l = c)); simpl in Hin; eauto.
  - intros l Hlt. rewrite Hlen in Hlt.
    destruct np as [p|].
    + destruct (Hnp p eq_refl) as [Hpe Hpo].
      pose proof (proto_change_chain_off h c o (Some p) Hl _ _ Hpo Hpe) as Hp'.
      assert (chain_ends (S (length h)) (<[c := with_proto o (Some p)]> h) c
              = true) as Hc'.
      { simpl. rewrite (proto_change_lookup h c o (Some p) Hl c), Hl. simpl.
        rewrite decide_True by reflexivity. simpl. exact Hp'. }
      eapply chain_ends_within_store.
      apply (proto_change_chain_through h c o (Some p) Hl (length h) _ l Hc').
      now apply Hc.
    + rewrite Hlen.
      apply (proto_cut_chain_ends h c o None Hl); [reflexivity|now apply Hc].
Qed.

(** On a well-formed store an assignment is made or refused, and the
    store stays well-formed. *)
Lemma wf_put_property h l k v :
  wf_prop h -> l < length h -> val_ok h v = true ->
  match put_property h l k v with
  | Some (inr h') => wf_prop h' /\ length h' = length h
  | Some (inl _) => True
  | None => False
  end.
Proof.
  intros Hwf Hl Hok. unfold put_property.
  destruct (wf_find h l k Hwf Hl) as [fr ->].
  destruct (lookup_lt_is_Some_2 h l Hl) as [o Ho].
  assert (match define_own h l k v with
          | Some (inr h') => wf_prop h' /\ length h' = length h
          | Some (inl _) => True
          | None => False
          end) as Hdef.
  { unfold define_own. rewrite Ho.
    destruct (own k (props o)); [|destruct (extensible o); [|exact I]];
      (split; [now apply wf_data_put | apply length_insert]). }
  assert (forall np,
            (forall p, np = Some p -> p < length h) ->
            match change_prototype h l np with
            | Some (inr h') => wf_prop h' /\ length h' = length h
            | Some (inl _) => True
            | None => False
            end) as Hch.
  { intros np Hnp. unfold change_prototype. rewrite Ho.
    destruct (decide (proto o = np)); [auto|].
    destruct (l =? object_prototype)%nat; [exact I|].
    destruct (negb (extensible o)); [exact I|].
    destruct np as [p|].
    - destruct Hwf as [Hv Hc]. rewrite (Hc p (Hnp p eq_refl)).
      destruct (on_chain (length h) h p l) eqn:Eo; [exact I|].
      split; [|apply length_insert].
      apply wf_proto_change; [now split | assumption|].
      intros p' [= <-]. split; [apply Hc, (Hnp p eq_refl) | assumption].
    - split; [|apply length_insert].
      apply wf_proto_change; [assumption.. | discriminate]. }
  destruct fr as [[x w|]|]; [destruct w; [exact Hdef|exact I]| |exact Hdef].
  destruct v; simpl; auto; apply Hch; intros p [= <-]; simpl in Hok;
    now apply Nat.ltb_lt.
Qed.

(** On a well-formed store an iteration of the walk is never stuck, and
    it leaves the store well-formed. *)
Lemma step_wf path l k h :
  wf_prop h -> l < length h ->
  match step path (VObj l) k h with
  | Ret c ha => wf_prop ha /\ length h <= length ha /\ val_ok ha c = true
  | Throw _ ha => wf_prop ha
  | Stuck => False
  end.
Proof.
  intros Hwf Hl. unfold step, bind, ret, throw, js_get.
  destruct (wf_lookup _ _ k Hwf Hl) as (r & -> & Hok).
  destruct (object_like (default VUndefined r)) eqn:Eo.
  { unfold safeCast. auto. }
  destruct (loose_eq_null (default VUndefined r)); [|exact Hwf].
  unfold new_object, js_put.
  assert (object_prototype < length h) as H0 by (unfold object_prototype; lia).
  pose proof (wf_alloc _ Hwf H0) as Hwf1.
  assert (length (h ++ [empty_object]) = S (length h)) as Hlen
    by (rewrite length_app; simpl; lia).
  pose proof (wf_put_property (h ++ [empty_object]) l k (VObj (length h)) Hwf1)
    as Hput.
  rewrite Hlen in Hput. specialize (Hput ltac:(lia)).
  simpl in Hput. rewrite Hlen in Hput.
  specialize (Hput ltac:(apply Nat.ltb_lt; lia)).
  destruct (put_property (h ++ [empty_object]) l k (VObj (length h)))
    as [[e|h2]|]; [exact Hwf1| |exact Hput].
  destruct Hput as [Hwf2 Hlen2]. split; [assumption|]. split; [lia|].
  simpl. apply Nat.ltb_lt. lia.
Qed.

Lemma descend_wf path q l h :
  wf_prop h -> l < length h ->
  match descend path (VObj l) q h with
  | Ret c h1 => wf_prop h1 /\ length h <= length h1 /\
                exists lc, c = VObj lc /\ lc < length h1
  | Throw _ h1 => wf_prop h1
  | Stuck => False
  end.
Proof.
  revert l h. induction q as [|k q IH]; intros l h Hwf Hl.
  - simpl. unfold ret. eauto.
  - rewrite descend_cons. unfold bind.
    pose proof (step_wf path l k h Hwf Hl) as Hs.
    destruct (step path (VObj l) k h) as [c ha|e ha|] eqn:Es;
      [|exact Hs|exact Hs].
    destruct Hs as (Hwfa & Hle & Hok).
    destruct (step_Ret _ _ _ _ _ _ Es) as (l1 & -> & _).
    simpl in Hok. apply Nat.ltb_lt in Hok.
    specialize (IH l1 ha Hwfa Hok).
    destruct (descend path (VObj l1) q ha) as [c h1|e h1|]; auto.
    destruct IH as (Hwf1 & Hle1 & lc & -> & Hlc).
    split; [assumption|]. split; [lia|]. eauto.
Qed.

(** [set] keeps a well-formed store well-formed, and is never stuck
    on one. *)
Lemma set_loop_wf path q k l v h :
  wf_prop h -> l < length h -> val_ok h v = true ->
  match set_loop path (VObj l) (q ++ [k]) v h with
  | Ret _ h' | Throw _ h' => wf_prop h'
  | Stuck => False
  end.
Proof.
  intros Hwf Hl Hv. rewrite set_loop_descend. unfold bind.
  pose proof (descend_wf path q l h Hwf Hl) as Hd.
  destruct (descend path (VObj l) q h) as [c h1|e h1|] eqn:Ed;
    [|exact Hd|exact Hd].
  destruct Hd as (Hwf1 & Hle & lc & -> & Hlc).
  unfold js_put.
  pose proof (wf_put_property h1 lc k v Hwf1 Hlc
                (val_ok_mono _ _ _ Hle Hv)) as Hput.
  destruct (put_property h1 lc k v) as [[e|h2]|]; [assumption| |assumption].
  now destruct Hput.
Qed.

(** ** The listing of own names *)

Lemma insert_index_sublist x l :
  map snd l `sublist_of` map snd (insert_index x l).
Proof.
  induction l as [|y l IH]; simpl.
  - apply sublist_cons, sublist_nil.
  - destruct (fst x <? fst y)%N; simpl.
    + apply sublist_cons. reflexivity.
    + now apply sublist_skip.
Qed.

Lemma indexed_snoc names k :
  indexed (names ++ [k])
  = match array_index k with
    | Some n => insert_index (n, k) (indexed names)
    | None => indexed names
    end.
Proof. unfold indexed. now rewrite fold_left_app. Qed.

Lemma named_snoc names k :
  named (names ++ [k])
  = named names ++ match array_index k with None => [k] | Some _ => [] end.
Proof.
  unfold named. rewrite List.filter_app. simpl.
  now destruct (array_index k).
Qed.

(** An assignment keeps the names that are listed, in their order. *)
Lemma own_keys_put o k p :
  own_keys o `sublist_of` own_keys (with_props o (own_put k p (props o))).
Proof.
  unfold own_keys. simpl. rewrite own_put_names.
  destruct (own k (props o)); [reflexivity|].
  rewrite indexed_snoc, named_snoc.
  destruct (array_index k) as [n|].
  - rewrite app_nil_r. apply sublist_app; [|reflexivity].
    apply insert_index_sublist.
  - apply sublist_app; [reflexivity|]. now apply sublist_inserts_r.
Qed.

(** ** The frame of [set] *)

Lemma frame_refl T A h : frame T A h h.
Proof. intros l o Hl. exists o. repeat split; auto. Qed.

Lemma frame_trans T A h1 h2 h3 :
  frame T A h1 h2 -> frame T A h2 h3 -> frame T A h1 h3.
Proof.
  intros H12 H23 l o Hl.
  destruct (H12 l o Hl) as (o2 & Hl2 & Hc2 & He2 & Hk2 & Ho2 & Hx2).
  destruct (H23 l o2 Hl2) as (o3 & Hl3 & Hc3 & He3 & Hk3 & Ho3 & Hx3).
  exists o3. split; [assumption|]. split; [congruence|]. split; [congruence|].
  split; [etransitivity; eassumption|]. split.
  - intros k Hk. rewrite Ho3, Ho2; auto.
  - intros k x w Hx Hn Ha. eauto.
Qed.

Lemma frame_alloc T A h o : frame T A h (h ++ [o]).
Proof.
  intros l o0 Hl. exists o0.
  rewrite (lookup_app_l_Some _ _ _ _ Hl). repeat split; auto.
Qed.

Lemma frame_data_put (T A : loc -> string -> Prop) h c k v o :
  h !! c = Some o -> T c k ->
  (forall x w, own k (props o) = Some (Data x w) ->
               loose_eq_null x = false -> A c k) ->
  frame T A h (<[c := with_props o (own_put k (Data v true) (props o))]> h).
Proof.
  intros Hc Hin Hov l o0 Hl.
  rewrite (data_put_lookup h c k v o Hc l), Hl. simpl.
  eexists. split; [reflexivity|].
  destruct (decide (l = c)) as [->|]; simpl; [|repeat split; auto].
  assert (o0 = o) as -> by congruence.
  split; [reflexivity|]. split; [reflexivity|].
  split; [apply own_keys_put|]. split.
  - intros k' Hk'. apply own_put_ne. intros ->. contradiction.
  - intros k' x w Hx Hn Ha. rewrite own_put_ne; [assumption|].
    intros ->. apply Ha. eauto.
Qed.

Lemma frame_proto_change (T A : loc -> string -> Prop) h c o np :
  h !! c = Some o -> frame T A h (<[c := with_proto o np]> h).
Proof.
  intros Hc l o0 Hl.
  rewrite (proto_change_lookup h c o np Hc l), Hl. simpl.
  eexists. split; [reflexivity|].
  destruct (decide (l = c)); simpl; repeat split; auto.
Qed.

Lemma step_frame (T A : loc -> string -> Prop) path l k h c ha :
  T l k -> step path (VObj l) k h = Ret c ha -> frame T A h ha.
Proof.
  intros Hin Hs.
  apply step_Ret in Hs as (l1 & _ & _ & _ & [[-> _]|Hc]); [apply frame_refl|].
  destruct Hc as (r & o & Hr & Hnull & Hl & _ & [[_ ->]|(_ & _ & ->)]);
    (eapply frame_trans; [apply frame_alloc|]).
  - apply frame_data_put; [now apply lookup_app_l_Some | exact Hin|].
    intros x w Hx Hn. exfalso.
    rewrite (own_lookup_property _ _ _ _ _ _ Hl Hx) in Hr.
    injection Hr as <-. simpl in Hnull. congruence.
  - apply frame_proto_change. now apply lookup_app_l_Some.
Qed.

Lemma descend_frame (T A : loc -> string -> Prop) path q l h :
  (forall li ki, touched path l q h li ki -> T li ki) ->
  match descend path (VObj l) q h with
  | Ret _ h1 | Throw _ h1 => frame T A h h1
  | Stuck => True
  end.
Proof.
  revert l h. induction q as [|k q IH]; intros l h HT.
  - apply frame_refl.
  - rewrite descend_cons. unfold bind.
    destruct (step path (VObj l) k h) as [next ha|e ha|] eqn:Es; [| |exact I].
    + assert (frame T A h ha) as Hf.
      { eapply step_frame; [|eassumption]. apply HT. now exists [], q, h. }
      destruct (step_Ret _ _ _ _ _ _ Es) as (l1 & -> & _).
      assert (forall li ki, touched path l1 q ha li ki -> T li ki) as HT'.
      { intros li ki (q1 & rest & hi & -> & Hd). apply HT.
        exists (k :: q1), rest, hi. split; [reflexivity|].
        rewrite descend_cons. unfold bind. now rewrite Es. }
      specialize (IH l1 ha HT').
      destruct (descend path (VObj l1) q ha); eauto using frame_trans.
    + destruct (step_Throw _ _ _ _ _ _ Es) as [(-> & _)|(-> & _)];
        [apply frame_refl | apply frame_alloc].
Qed.

Lemma touched_snoc_l path e q k h l k' :
  touched path e q h l k' -> touched path e (q ++ [k]) h l k'.
Proof.
  intros (q1 & rest & hi & -> & Hd). exists q1, (rest ++ [k]), hi.
  split; [now rewrite <- app_assoc | assumption].
Qed.

(** ** Accessors and prototypes *)

Lemma find_property_own n h l k p :
  find_property n h l k = Some (Some p) ->
  exists l' o, h !! l' = Some o /\ own k (props o) = Some p.
Proof.
  revert l. induction n as [|n IH]; intros l Hf; [discriminate|].
  simpl in Hf. destruct (h !! l) as [o|] eqn:Hl; [|discriminate].
  destruct (own k (props o)) as [y|] eqn:Ho.
  - injection Hf as ->. eauto.
  - destruct (proto o); [eauto | discriminate].
Qed.

Lemma accessor_free_find h names n l k :
  accessor_free h names -> In k names ->
  find_property n h l k <> Some (Some ProtoAccessor).
Proof.
  intros Haf Hin Hf. apply find_property_own in Hf as (l' & o & Hl & Ho).
  exact (Haf _ _ _ Hl Hin Ho).
Qed.

Lemma accessor_free_alloc h names :
  accessor_free h names -> accessor_free (h ++ [empty_object]) names.
Proof.
  intros Haf l o k Hl Hin.
  destruct (decide (l < length h)) as [Hlt|Hge].
  - rewrite lookup_app_l in Hl by assumption. eauto.
  - rewrite lookup_app_r in Hl by lia.
    destruct (l - length h) as [|n]; simpl in Hl; [|discriminate].
    injection Hl as <-. discriminate.
Qed.

Lemma accessor_free_data_put h names c k v o :
  h !! c = Some o -> accessor_free h names ->
  accessor_free (<[c := with_props o (own_put k (Data v true) (props o))]> h)
    names.
Proof.
  intros Hc Haf l o' k' Hl Hin.
  rewrite (data_put_lookup h c k v o Hc l) in Hl.
  destruct (h !! l) as [o0|] eqn:Hl0; [|discriminate].
  simpl in Hl. injection Hl as <-.
  destruct (decide (l = c)); simpl; [|eauto].
  destruct (String.eqb_spec k' k) as [->|Hne].
  - now rewrite own_put_eq.
  - rewrite own_put_ne by assumption. eauto.
Qed.

Lemma accessor_free_proto_change h names c o np :
  h !! c = Some o -> accessor_free h names ->
  accessor_free (<[c := with_proto o np]> h) names.
Proof.
  intros Hc Haf l o' k' Hl Hin.
  rewrite (proto_change_lookup h c o np Hc l) in Hl.
  destruct (h !! l) as [o0|] eqn:Hl0; [|discriminate].
  simpl in Hl. injection Hl as <-.
  destruct (decide (l = c)); simpl; eauto.
Qed.

Lemma same_prototypes_refl h : same_prototypes h h.
Proof. intros l o Hl. eauto. Qed.

Lemma same_prototypes_trans h1 h2 h3 :
  same_prototypes h1 h2 -> same_prototypes h2 h3 -> same_prototypes h1 h3.
Proof.
  intros H12 H23 l o Hl. destruct (H12 l o Hl) as (o2 & Hl2 & Hp2).
  destruct (H23 l o2 Hl2) as (o3 & Hl3 & Hp3). exists o3. split; congruence.
Qed.

Lemma same_prototypes_alloc h o : same_prototypes h (h ++ [o]).
Proof.
  intros l o0 Hl. exists o0. now rewrite (lookup_app_l_Some _ _ _ _ Hl).
Qed.

Lemma same_prototypes_data_put h c k v o :
  h !! c = Some o ->
  same_prototypes h
    (<[c := with_props o (own_put k (Data v true) (props o))]> h).
Proof.
  intros Hc l o0 Hl. rewrite (data_put_lookup h c k v o Hc l), Hl. simpl.
  eexists. split; [reflexivity|]. now destruct (decide (l = c)).
Qed.

(** The walk creates no accessor; and where the names it reads resolve
    to no accessor, it changes no prototype. *)
Lemma step_accessor_free path l k h names :
  accessor_free h names ->
  match step path (VObj l) k h with
  | Ret _ ha | Throw _ ha =>
      accessor_free ha names /\ (In k names -> same_prototypes h ha)
  | Stuck => True
  end.
Proof.
  intros Haf.
  destruct (step path (VObj l) k h) as [c ha|e ha|] eqn:Es; [| |exact I].
  - apply step_Ret in Es as (l1 & _ & _ & _ & [[-> _]|Hc]).
    { split; [assumption|]. intros _. apply same_prototypes_refl. }
    destruct Hc as (r & o & Hr & Hnull & Hl & _ & [[_ ->]|(Ho & _ & ->)]).
    + pose proof (lookup_app_l_Some _ [empty_object] _ _ Hl) as Hl1. split.
      * apply accessor_free_data_put; [assumption|].
        now apply accessor_free_alloc.
      * intros _. eapply same_prototypes_trans;
          [apply same_prototypes_alloc | now apply same_prototypes_data_put].
    + pose proof (lookup_app_l_Some _ [empty_object] _ _ Hl) as Hl1. split.
      * apply accessor_free_proto_change; [assumption|].
        now apply accessor_free_alloc.
      * intros Hin. exfalso. exact (Haf _ _ _ Hl Hin Ho).
  - destruct (step_Throw _ _ _ _ _ _ Es) as [(-> & _)|(-> & _)].
    + split; [assumption|]. intros _. apply same_prototypes_refl.
    + split; [now apply accessor_free_alloc|].
      intros _. apply same_prototypes_alloc.
Qed.

Lemma descend_accessor_free path q l h names :
  accessor_free h names ->
  match descend path (VObj l) q h with
  | Ret _ h1 | Throw _ h1 =>
      accessor_free h1 names /\
      ((forall k, In k q -> In k names) -> same_prototypes h h1)
  | Stuck => True
  end.
Proof.
  revert l h. induction q as [|k q IH]; intros l h Haf.
  - simpl. unfold ret. split; [assumption|].
    intros _. apply same_prototypes_refl.
  - rewrite descend_cons. unfold bind.
    pose proof (step_accessor_free path l k h names Haf) as Hs.
    destruct (step path (VObj l) k h) as [next ha|e ha|] eqn:Es; [| |exact I].
    + destruct Hs as [Hafa Hsp].
      destruct (step_Ret _ _ _ _ _ _ Es) as (l1 & -> & _).
      specialize (IH l1 ha Hafa).
      destruct (descend path (VObj l1) q ha) as [c h1|e h1|]; [| |exact I];
        (destruct IH as [Haf1 Hsp1]; split; [assumption|]; intros Hq;
         eapply same_prototypes_trans;
           [apply Hsp, Hq; now left | apply Hsp1; intros k' Hk'; apply Hq;
                                      now right]).
    + destruct Hs as [Hafa Hsp]. split; [assumption|].
      intros Hq. apply Hsp, Hq. now left.
Qed.

(** ** The capture engine *)

Lemma apply_selector_string_chain accesses path :
  apply_selector Proxy (string_chain accesses) path
  = Ret Proxy (path ++ map snd accesses).
Proof.
  revert path. induction accesses as [|[opt n] accesses IH]; intros path; simpl.
  - unfold ret. now rewrite app_nil_r.
  - unfold bind. simpl. rewrite IH. now rewrite <- app_assoc.
Qed.

(** A selector of the documented form stands for the list of its
    names. *)
Lemma normalize_string_chain accesses h :
  normalize (IsFunction (string_chain accesses)) h
  = normalize (IsArray (map snd accesses)) h.
Proof.
  unfold normalize, nameof, ret. now rewrite apply_selector_string_chain.
Qed.

Lemma apply_selector_symbol before opt id after path :
  apply_selector Proxy
    (string_chain before ++ Access opt (KSymbol id) :: after) path
  = Throw non_string_key (path ++ map snd before).
Proof.
  revert path. induction before as [|[o n] before IH]; intros path; simpl.
  - unfold bind. simpl. unfold throw. now rewrite app_nil_r.
  - unfold bind. simpl. rewrite IH. now rewrite <- app_assoc.
Qed.

(** A selector is a chain of string-named accesses, or such a chain up
    to its first access with a symbol key. *)
Lemma selector_split (selector : Selector) :
  (exists accesses, selector = string_chain accesses) \/
  (exists before opt id after,
     selector = string_chain before ++ Access opt (KSymbol id) :: after).
Proof.
  induction selector as [|[opt [n|id]] selector IH].
  - left. now exists [].
  - destruct IH as [[a ->]|(b & o & i & af & ->)].
    + left. now exists ((opt, n) :: a).
    + right. now exists ((opt, n) :: b), o, i, af.
  - right. now exists [], opt, id, selector.
Qed.

(** The names already in the array are kept in front of the new ones. *)
Lemma apply_selector_shift selector path :
  apply_selector Proxy selector path
  = match apply_selector Proxy selector [] with
    | Ret c p => Ret c (path ++ p)
    | Throw e p => Throw e (path ++ p)
    | Stuck => Stuck
    end.
Proof.
  destruct (selector_split selector) as [[a ->]|(b & o & i & af & ->)].
  - now rewrite !apply_selector_string_chain.
  - now rewrite !apply_selector_symbol.
Qed.

Lemma apply_selector_app s1 s2 path :
  apply_selector Proxy (s1 ++ s2) path
  = match apply_selector Proxy s1 path with
    | Ret _ p1 => apply_selector Proxy s2 p1
    | Throw e p => Throw e p
    | Stuck => Stuck
    end.
Proof.
  revert path. induction s1 as [|[opt [n|id]] s1 IH]; intros path.
  - reflexivity.
  - simpl. unfold bind. simpl. apply IH.
  - reflexivity.
Qed.

(** ** get *)

Lemma get_loop_total h output p :
  wf_prop h -> val_ok h output = true ->
  exists x, get_loop output p h = Ret x h /\ val_ok h x = true.
Proof.
  intros Hwf. revert output. induction p as [|k p IH]; intros output Hok.
  - exists output. auto.
  - destruct (object_like output) eqn:Eo.
    + apply object_like_inv in Eo as [l ->].
      simpl in Hok. apply Nat.ltb_lt in Hok.
      destruct (wf_lookup _ _ k Hwf Hok) as ([x|] & Hr & Hx).
      * rewrite (get_loop_found _ _ _ _ x Hr). now apply IH.
      * rewrite (get_loop_missing _ _ _ _ Hr). eauto.
    + rewrite get_loop_not_object by assumption. eauto.
Qed.

(** [get] does not throw on any store, well-formed or not. *)
Lemma get_no_throw entity p h e h' : get entity (IsArray p) h <> Throw e h'.
Proof.
  unfold get, normalize, bind, ret. intros H.
  pose proof (get_loop_pure entity p h) as Hp. now rewrite H in Hp.
Qed.

Lemma lookup_property_inherited h l o k r :
  h !! l = Some o -> own k (props o) = None ->
  lookup_property h l k = Some r ->
  inherited h l o k = Some r.
Proof.
  unfold lookup_property, inherited, lookup_from. intros Hl Ho Hr.
  destruct (length h) as [|n] eqn:En; [discriminate|].
  simpl in Hr. rewrite Hl, Ho in Hr.
  destruct (proto o) as [l'|]; [|assumption].
  destruct (find_property n h l' k) as [fr|] eqn:Hf; [|discriminate].
  now rewrite (find_property_mono _ (S n) _ _ _ _ Hf ltac:(lia)).
Qed.

(** Where [get] finds objects all along, the walk of [set] follows them
    and creates nothing. *)
Lemma get_loop_descend path l q h c h' :
  get_loop (VObj l) q h = Ret (VObj c) h' ->
  descend path (VObj l) q h = Ret (VObj c) h.
Proof.
  revert l. induction q as [|k q IH]; intros l Hg.
  - injection Hg as <- _. reflexivity.
  - apply get_loop_cons_Ret in Hg as [[_ [=]]|(x & Hx & Hg)].
    destruct (object_like_inv _ (get_loop_Ret_obj _ _ _ _ _ Hg)) as [l1 ->].
    rewrite descend_cons. unfold bind, step, bind, js_get. rewrite Hx.
    simpl. now apply IH.
Qed.

Lemma get_loop_preserved exc h h' entity p x :
  preserved_but exc h h' ->
  (forall k, In k p -> Some k <> exc) ->
  get_loop entity p h = Ret x h ->
  loose_eq_null x = false ->
  get_loop entity p h' = Ret x h'.
Proof.
  intros Hpres. revert entity. induction p as [|k p IH]; intros entity Hk Hg Hx.
  - injection Hg as ->. reflexivity.
  - destruct (object_like entity) eqn:Eo.
    2:{ rewrite get_loop_not_object in Hg by assumption.
        injection Hg as <-. discriminate. }
    destruct (object_like_inv _ Eo) as [l ->].
    apply get_loop_cons_Ret in Hg as [[_ ->]|(y & Hy & Hg)]; [discriminate|].
    assert (loose_eq_null y = false) as Hny.
    { destruct p as [|k2 p].
      - injection Hg as ->. assumption.
      - destruct (object_like y) eqn:Ey;
          [now apply object_like_not_null|].
        rewrite get_loop_not_object in Hg by assumption.
        injection Hg as <-. discriminate. }
    rewrite (get_loop_found _ _ _ _ y).
    + apply IH; auto. intros k' Hin. apply Hk. now right.
    + apply Hpres; auto. apply Hk. now left.
Qed.

(** * The specification *)

(** ** The round trip *)

(** C1 (amended).  With the empty path [set] changes nothing and [get]
    returns the entity itself.  For an entity that is an ordinary
    object, a non-empty path [q ++ [k]] and any value: when [set]
    returns, [get] on the mutated store returns the value that was
    written, provided that the last name [k] does not resolve to the
    [__proto__] accessor on the object that receives the assignment, and
    that no earlier occurrence of [k] in the path reads from that object
    or from an object that inherits from it. *)
Theorem set_get_round_trip (h h' : heap) (e : loc) (q : list string)
    (k : string) (v : val) :
  (set (VObj e) (IsArray []) v h = Ret tt h /\
   get (VObj e) (IsArray []) h = Ret (VObj e) h) /\
  (unshadowed (q ++ [k]) q k e h h' ->
   data_target (q ++ [k]) q k e h ->
   set (VObj e) (IsArray (q ++ [k])) v h = Ret tt h' ->
   get (VObj e) (IsArray (q ++ [k])) h' = Ret v h').
Proof.
  split; [split; reflexivity|].
  intros Hsh Hdt Hset. unfold set, get, normalize, bind, ret, safeCast in *.
  eapply set_loop_get_loop; eauto.
Qed.

(** Both provisos hold when the last name occurs once in the path and
    no object has an accessor under it. *)
Lemma data_target_accessor_free path q k e h :
  accessor_free h [k] -> data_target path q k e h.
Proof.
  intros Haf c h1 Hd.
  pose proof (descend_accessor_free path q e h [k] Haf) as Hd1.
  rewrite Hd in Hd1. destruct Hd1 as [Haf1 _].
  eapply accessor_free_find; [eassumption | now left].
Qed.

Corollary set_get_fresh_last_name (h h' : heap) (e : loc) (q : list string)
    (k : string) (v : val) :
  ~ In k q -> accessor_free h [k] ->
  set (VObj e) (IsArray (q ++ [k])) v h = Ret tt h' ->
  get (VObj e) (IsArray (q ++ [k])) h' = Ret v h'.
Proof.
  intros Hk Haf Hset. unfold set, get, normalize, bind, ret, safeCast in *.
  eapply set_loop_get_loop;
    eauto using unshadowed_fresh_name, data_target_accessor_free.
Qed.

(** ** The capture of a selector *)

(** C7.  On a selector that is a chain of [k] string-named accesses, each
    written [.] or [?.], [nameof] returns exactly the [k] names, in the
    order of the accesses; the result does not depend on which accesses
    are written [?.]. *)
Theorem nameof_string_chain {S} (accesses : list (bool * string)) (s : S) :
  nameof (string_chain accesses) s = Ret (map snd accesses) s
  /\ length (map snd accesses) = length accesses
  /\ (forall accesses' : list (bool * string),
        map snd accesses' = map snd accesses ->
        nameof (string_chain accesses') s = nameof (string_chain accesses) s).
Proof.
  assert (forall a, nameof (string_chain a) s = Ret (map snd a) s) as H.
  { intros a. unfold nameof. now rewrite apply_selector_string_chain. }
  split; [apply H|]. split; [apply length_map|].
  intros accesses' E. now rewrite !H, E.
Qed.

(** C8.  When the selector reaches an access whose key is a symbol, the
    trap throws the non-string-key [TypeError]; [nameof] throws it on to
    its caller, whose state is untouched, and the names recorded so far
    stay behind in the array of the session that is dropped. *)
Theorem nameof_symbol_key {S} (before : list (bool * string)) (opt : bool)
    (id : nat) (after : Selector) (s : S) :
  let selector := string_chain before ++ Access opt (KSymbol id) :: after in
  apply_selector Proxy selector [] = Throw non_string_key (map snd before)
  /\ nameof selector s = Throw non_string_key s.
Proof.
  assert (forall path,
    apply_selector Proxy (string_chain before ++ Access opt (KSymbol id) :: after)
      path = Throw non_string_key (path ++ map snd before)) as H.
  { induction before as [|[o n] before IH]; intros path; simpl.
    - unfold bind. simpl. unfold throw. now rewrite app_nil_r.
    - unfold bind. simpl. rewrite IH. now rewrite <- app_assoc. }
  simpl. split; [apply (H [])|].
  unfold nameof. now rewrite (H []).
Qed.

(** ** get *)

(** C3.  On a well-formed store, [get] with a path given as a list of
    names always returns a value and never throws; and whenever the
    traversal meets a value that is not object-like (a primitive, [null],
    [undefined]) or an object on which the next name is missing, the
    result is [undefined]. *)
Theorem get_never_throws (h : heap) (entity : val) (p : list string) :
  heap_wf h = true -> val_ok h entity = true ->
  (exists x, get entity (IsArray p) h = Ret x h) /\
  (forall q k r x,
     p = q ++ k :: r ->
     get entity (IsArray q) h = Ret x h ->
     object_like x = false \/
       (exists l, x = VObj l /\ lookup_property h l k = Some None) ->
     get entity (IsArray p) h = Ret VUndefined h).
Proof.
  intros Hwf Hok. apply heap_wf_iff in Hwf.
  unfold get, normalize, bind, ret. split.
  - destruct (get_loop_total h entity p Hwf Hok) as (x & Hx & _). eauto.
  - intros q k r x -> Hq Hx. rewrite get_loop_app. unfold bind. rewrite Hq.
    destruct Hx as [Hx|(l & -> & Hl)].
    + now apply get_loop_not_object.
    + now apply get_loop_missing.
Qed.

(** C2 (amended).  When the current value is an object that does not
    own the next name, [get] consults the prototype chain: it stops with
    [undefined] only if the name is not found there either, and
    otherwise goes on with the inherited value, as it does with an own
    one. *)
Theorem get_not_own (h : heap) (l : loc) (o : obj) (k : string)
    (rest : list string) :
  heap_wf h = true -> h !! l = Some o -> own k (props o) = None ->
  get (VObj l) (IsArray (k :: rest)) h
  = match inherited h l o k with
    | Some (Some x) => get x (IsArray rest) h
    | _ => Ret VUndefined h
    end.
Proof.
  intros Hwf Hl Ho. apply heap_wf_iff in Hwf.
  destruct (wf_lookup h l k Hwf (lookup_lt_Some _ _ _ Hl)) as (r & Hr & _).
  rewrite (lookup_property_inherited _ _ _ _ _ Hl Ho Hr).
  unfold get, normalize, bind, ret. destruct r as [x|].
  - now apply get_loop_found.
  - now apply get_loop_missing.
Qed.

(** ** set *)

(** C10.  With the empty path [set] returns at once and the store is
    the one it was given. *)
Theorem set_empty_path (h : heap) (entity v : val) :
  set entity (IsArray []) v h = Ret tt h.
Proof. reflexivity. Qed.

(** The throwing outcomes of the loop: those of the walk, and the
    refusal of the last assignment. *)
Lemma set_loop_Throw path q k l v h exn h' :
  set_loop path (VObj l) (q ++ [k]) v h = Throw exn h' ->
  descend path (VObj l) q h = Throw exn h' \/
  (refusal exn /\ exists c,
     descend path (VObj l) q h = Ret (VObj c) h' /\
     put_property h' c k v = Some (inl exn)).
Proof.
  rewrite set_loop_descend. unfold bind.
  destruct (descend path (VObj l) q h) as [c h1|e h1|] eqn:Ed.
  - destruct (descend_Ret _ _ _ _ _ _ Ed) as ([lc ->] & _).
    intros Hp.
    apply js_put_Throw in Hp as [-> [[=]|(l' & [= <-] & Hput)]].
    right. split; [eapply put_property_refusal; eauto|]. eauto.
  - intros [= -> ->]. now left.
  - discriminate.
Qed.

Lemma set_loop_conflict path q k l v h h' :
  set_loop path (VObj l) (q ++ [k]) v h
    = Throw (TypeError (conflict_message path)) h' <->
  blocked path l q h h'.
Proof.
  split.
  - intros Hs. apply set_loop_Throw in Hs as [Hd|[Hr _]].
    + apply descend_Throw in Hd as [[_ Hb]|[Hr _]]; [assumption|].
      now apply (refusal_not_conflict _ path) in Hr.
    + now apply (refusal_not_conflict _ path) in Hr.
  - intros Hb. rewrite set_loop_descend. unfold bind.
    now rewrite (blocked_descend_Throw _ _ _ _ _ Hb).
Qed.


(** C9.  When [set] throws the conflict error, the walk was blocked at
    some name [k1] that is not the last: the store it throws with is
    the very store that the walk over the names [q1] before [k1]
    produced, with every container created on the way; in that store
    the value under [k1] is the one that blocks, every part of [q1]
    read from the entity still leads to the container the walk had
    reached there, and what could be read before can be read still:
    nothing is undone. *)
Theorem set_conflict_keeps_mutation (h h' : heap) (e : loc)
    (p : list string) (v : val) :
  set (VObj e) (IsArray p) v h = Throw (TypeError (conflict_message p)) h' ->
  exists q1 k1 rest c x,
    p = q1 ++ k1 :: rest /\ rest <> [] /\
    descend p (VObj e) q1 h = Ret (VObj c) h' /\
    js_get (VObj c) k1 h' = Ret x h' /\
    object_like x = false /\ loose_eq_null x = false /\
    (forall q0 q2 c0 h0,
       q1 = q0 ++ q2 ->
       descend p (VObj e) q0 h = Ret (VObj c0) h0 ->
       get (VObj e) (IsArray q0) h' = Ret (VObj c0) h') /\
    length h <= length h' /\
    preserved_but None h h'.
Proof.
  unfold set, get, normalize, bind, ret, safeCast. intros Hs.
  destruct (exists_last (l := p)) as (q & k & ->).
  { intros ->. discriminate. }
  apply set_loop_conflict in Hs
    as (q1 & k1 & q2 & c & x & -> & Hd & Hg & Ho & Hn).
  exists q1, k1, (q2 ++ [k]), c, x.
  destruct (descend_Ret _ _ _ _ _ _ Hd) as (_ & Hp & _).
  split; [now rewrite <- app_assoc|]. split; [apply snoc_not_nil|].
  split; [assumption|]. split; [assumption|].
  split; [assumption|]. split; [assumption|].
  split; [|split; [eapply descend_length; eauto | assumption]].
  intros q0 r c0 h0 -> Hd0.
  rewrite descend_app in Hd. unfold bind in Hd. rewrite Hd0 in Hd.
  destruct (descend_Ret _ _ _ _ _ _ Hd0) as (_ & _ & Hg0).
  destruct (descend_Ret _ _ _ _ _ _ Hd) as (_ & Hp0 & _).
  eapply get_loop_preserved; eauto.
Qed.

(** C5 (amended).  In an iteration of [set] that is not the last, when
    the read [object[key]] of the next name finds nothing (neither on
    the container nor on its prototype chain) or finds [null] or
    [undefined], [set] creates an empty object and assigns it to that
    name on the current container.  When the assignment is made, the
    name now reads as the new object and [set] goes on inside it; the
    assignment is made whenever the container is extensible and the
    name is missing or resolves to a writable data property.  When the
    language refuses the assignment, [set] throws that error and the
    new object stays unattached.  In particular [set({}, ["a","b"], 1)]
    leaves the entity as [{a: {b: 1}}]. *)
Theorem set_creates_containers :
  (forall (path : list string) (l : loc) (k : string) (rest : list string)
          (v : val) (h : heap) (r : option val),
     rest <> [] ->
     lookup_property h l k = Some r ->
     loose_eq_null (default VUndefined r) = true ->
     let newValue := VObj (length h) in
     let h1 := h ++ [empty_object] in
     set_loop path (VObj l) (k :: rest) v h
       = (let! _ := js_put (VObj l) k newValue in
          set_loop path newValue rest v) h1
     /\ h1 !! length h = Some empty_object
     /\ (forall u h2,
           js_put (VObj l) k newValue h1 = Ret u h2 ->
           lookup_property h2 l k = Some (Some newValue) /\
           h2 !! length h = Some empty_object /\
           set_loop path (VObj l) (k :: rest) v h
             = set_loop path newValue rest v h2)
     /\ (forall exn h2,
           js_put (VObj l) k newValue h1 = Throw exn h2 ->
           refusal exn /\
           set_loop path (VObj l) (k :: rest) v h = Throw exn h1)
     /\ (forall o,
           h !! l = Some o -> extensible o = true ->
           find_property (length h) h l k = Some None \/
             (exists x, find_property (length h) h l k
                        = Some (Some (Data x true))) ->
           js_put (VObj l) k newValue h1
             = Ret tt (<[l := with_props o
                               (own_put k (Data newValue true) (props o))]>
                         h1)))
  /\ set entity_ref (IsArray ["a"; "b"]) (VNum 1) (store_with [])
     = Ret tt (realm ++ [literal [("a", VObj 18)]; literal [("b", VNum 1)]]).
Proof.
  split; [|reflexivity].
  intros path l k rest v h r Hrest Hr Hnull newValue h1.
  assert (set_loop path (VObj l) (k :: rest) v h
          = (let! _ := js_put (VObj l) k newValue in
             set_loop path newValue rest v) h1) as Hstep.
  { rewrite set_loop_step by assumption.
    unfold bind, js_get, new_object. rewrite Hr, Hnull.
    now rewrite (nullish_not_object_like _ Hnull). }
  assert (h1 !! length h = Some empty_object) as Hnew.
  { unfold h1. rewrite lookup_app_r by lia. now rewrite Nat.sub_diag. }
  split; [exact Hstep|]. split; [exact Hnew|]. split; [|split].
  - intros u h2 Hput.
    assert (step path (VObj l) k h = Ret newValue h2) as Hs.
    { unfold step, bind, js_get, new_object. rewrite Hr, Hnull.
      rewrite (nullish_not_object_like _ Hnull). fold h1. fold newValue.
      now rewrite Hput. }
    destruct (step_Ret _ _ _ _ _ _ Hs) as (l1 & [= <-] & Hl1 & _ & Hc).
    split; [exact Hl1|]. split.
    + destruct Hc as [[-> _]|(r' & o & _ & _ & Hl & _ & Hc)].
      { apply js_put_Ret in Hput as (l' & _ & Hput).
        apply put_property_length in Hput. unfold h1 in Hput.
        rewrite length_app in Hput. simpl in Hput. lia. }
      pose proof (lookup_lt_Some _ _ _ Hl) as Hlt.
      destruct Hc as [[_ ->]|(_ & _ & ->)];
        (rewrite list_lookup_insert_ne by lia; exact Hnew).
    + rewrite Hstep. unfold bind. now rewrite Hput.
  - intros exn h2 Hput.
    apply js_put_Throw in Hput as Hinv.
    destruct Hinv as [-> [[=]|(l' & [= <-] & Hp)]].
    split; [eapply put_property_refusal; eauto|].
    rewrite Hstep. unfold bind. now rewrite Hput.
  - intros o Hl Hext Hf.
    assert (h1 !! l = Some o) as Hl1
      by (unfold h1; now apply lookup_app_l_Some).
    assert (forall fr, find_property (length h) h l k = Some fr ->
                       find_property (length h1) h1 l k = Some fr) as Hmono.
    { intros fr E. unfold h1. rewrite length_app. apply find_property_app.
      eapply find_property_mono; [exact E | lia]. }
    unfold js_put, put_property, define_own.
    destruct Hf as [Hf|[x Hf]]; rewrite (Hmono _ Hf), Hl1, Hext;
      now destruct (own k (props o)).
Qed.

(** C6 (amended).  Whether [set] returns or throws, every object of the
    store is still there, callable and extensible as it was; the names
    it owned are still listed, in the same order; only the properties
    along the path, the name at each position on the container the walk
    has reached there, can have changed; a data property that held a
    value other than [null] and [undefined], an object among them, has
    the same value unless it is the property that receives the
    assigned value; and where no name of the path resolves to an
    accessor, every object has the prototype it had.  In particular
    [set({a1: 2}, ["a","b"], 1)] leaves the entity with [a1: 2] and
    [a: {b: 1}]. *)
Theorem set_frame (h : heap) (e : loc) (p : list string) (v : val) :
  match set (VObj e) (IsArray p) v h with
  | Ret _ h' | Throw _ h' =>
      frame (touched p e p h) (target p e h) h h' /\
      (accessor_free h p -> same_prototypes h h')
  | Stuck => True
  end
  /\ (forall l k, touched p e p h l k -> In k p)
  /\ (forall l k, target p e h l k -> touched p e p h l k /\ last p = Some k)
  /\ set entity_ref (IsArray ["a"; "b"]) (VNum 1) (store_with [("a1", VNum 2)])
     = Ret tt (realm ++ [literal [("a1", VNum 2); ("a", VObj 18)];
                         literal [("b", VNum 1)]]).
Proof.
  split; [|split; [|split; [|reflexivity]]].
  2:{ intros l k (q1 & rest & hi & -> & _). apply in_or_app. right. now left. }
  2:{ intros l k (q1 & hi & -> & Hd). split; [|apply last_snoc].
      now exists q1, [], hi. }
  unfold set, normalize, bind, ret, safeCast.
  destruct (decide (p = [])) as [->|Hp].
  { split; [apply frame_refl|]. intros _. apply same_prototypes_refl. }
  destruct (exists_last Hp) as (q & k & ->).
  rewrite set_loop_descend. unfold bind.
  pose proof (descend_frame (touched (q ++ [k]) e (q ++ [k]) h)
                (target (q ++ [k]) e h) (q ++ [k]) q e h
                (fun li ki => touched_snoc_l _ _ _ _ _ _ _)) as Hd.
  assert (accessor_free h (q ++ [k]) ->
          match descend (q ++ [k]) (VObj e) q h with
          | Ret _ h1 | Throw _ h1 =>
              accessor_free h1 (q ++ [k]) /\ same_prototypes h h1
          | Stuck => True
          end) as Hsp.
  { intros Haf.
    pose proof (descend_accessor_free (q ++ [k]) q e h (q ++ [k]) Haf) as H.
    destruct (descend (q ++ [k]) (VObj e) q h); auto;
      (destruct H as [H1 H2]; split; [assumption|]; apply H2;
       intros k' Hk'; apply in_or_app; now left). }
  destruct (descend (q ++ [k]) (VObj e) q h) as [c h1|exn h1|] eqn:Ed;
    [|split; [exact Hd|apply Hsp]|exact I].
  destruct (descend_Ret _ _ _ _ _ _ Ed) as ([lc ->] & _).
  destruct (js_put (VObj lc) k v h1) as [u h'|exn h'|] eqn:Ep; [| |exact I].
  - apply js_put_Ret in Ep as (lc' & [= <-] & Hput).
    apply put_property_Ok in Hput as [(Hna & o & Hlc & _ & ->)|(Hfa & Hset)].
    + split.
      * eapply frame_trans; [exact Hd|].
        apply frame_data_put; [assumption|now exists q, [], h1|].
        intros _ _ _ _. now exists q, h1.
      * intros Haf. eapply same_prototypes_trans; [now apply Hsp|].
        now apply same_prototypes_data_put.
    + split.
      * eapply frame_trans; [exact Hd|].
        apply set_prototype_Ok in Hset as [->|(o & Hlc & _ & -> & _)];
          [apply frame_refl | now apply frame_proto_change].
      * intros Haf. exfalso. destruct (Hsp Haf) as [Haf1 _].
        eapply accessor_free_find; [exact Haf1| |exact Hfa].
        apply in_or_app. right. now left.
  - apply js_put_Throw in Ep as [-> _]. split; [exact Hd|apply Hsp].
Qed.

(** ** Instances *)

Lemma accessor_freeb_spec h names :
  accessor_freeb h names = true -> accessor_free h names.
Proof.
  unfold accessor_freeb, accessor_free. rewrite forallb_forall.
  intros H l o k Hl Hin Ho.
  apply list_elem_of_lookup_2, list_elem_of_In in Hl.
  specialize (H o Hl). rewrite forallb_forall in H.
  specialize (H k Hin). now rewrite Ho in H.
Qed.

(** The examples of the documentation of [nameof]. *)
Example nameof_prop1a_prop2a :
  nameof (S := heap)
    [Access false (KString "prop1a"); Access false (KString "prop2a")] []
  = Ret ["prop1a"; "prop2a"] [].
Proof. reflexivity. Qed.

Example nameof_prop1b_prop2b :
  nameof (S := heap)
    [Access false (KString "prop1b"); Access true (KString "prop2b")] []
  = Ret ["prop1b"; "prop2b"] [].
Proof. reflexivity. Qed.

(** [set(entity3, ["prop1", "prop2"], 1)] with [entity3 = { prop1: 3 }]. *)
Example set_prop1_conflict :
  set entity_ref (IsArray ["prop1"; "prop2"]) (VNum 1)
    (store_with [("prop1", VNum 3)])
  = Throw (TypeError "Path [prop1,prop2] conflicts with the entity structure.")
      (store_with [("prop1", VNum 3)]).
Proof. reflexivity. Qed.

(** [get({}, ["a","b"])] *)
Example get_missing_path :
  get entity_ref (IsArray ["a"; "b"]) (store_with [])
  = Ret VUndefined (store_with []).
Proof. reflexivity. Qed.

(** [set({a1: 2}, ["0","b"], 1)]: the new name is an array index, and is
    listed before the name that was there. *)
Example set_index_name_listed_first :
  exists h' o,
    set entity_ref (IsArray ["0"; "b"]) (VNum 1) (store_with [("a1", VNum 2)])
      = Ret tt h' /\
    h' !! entity_loc = Some o /\ own_keys o = ["0"; "a1"].
Proof. do 2 eexists. split; [reflexivity|]. split; reflexivity. Qed.

(** [set({}, ["__proto__"], 5)] calls the inherited setter, which
    ignores a number; [set({}, ["__proto__"], null)] cuts the entity from
    [Object.prototype]; and [set({}, ["__proto__","x"], 1)] walks into
    [Object.prototype] and assigns [x] there. *)
Example set_proto_name :
  set entity_ref (IsArray ["__proto__"]) (VNum 5) (store_with [])
    = Ret tt (store_with []) /\
  set entity_ref (IsArray ["__proto__"]) VNull (store_with [])
    = Ret tt (realm ++ [Obj None false true []]) /\
  (exists h' o,
     set entity_ref (IsArray ["__proto__"; "x"]) (VNum 1) (store_with [])
       = Ret tt h' /\
     h' !! object_prototype = Some o /\
     own "x" (props o) = Some (Data (VNum 1) true) /\
     h' !! entity_loc = Some (literal [])).
Proof.
  split; [reflexivity|]. split; [reflexivity|].
  do 2 eexists. split; [reflexivity|]. repeat split.
Qed.

(** Against C1 as it is stated: with the empty path [set] returns and
    [get] gives back the entity, not the value; on an entity whose
    property [a] is the entity itself, [set(e, ["a","a"], 5)] returns and
    [get(e, ["a","a"])] is [undefined]; and [set({}, ["__proto__"], 5)]
    returns and [get({}, ["__proto__"])] is [Object.prototype]. *)
Lemma round_trip_counterexample :
  (set entity_ref (IsArray []) (VNum 1) (store_with [])
     = Ret tt (store_with []) /\
   get entity_ref (IsArray []) (store_with [])
     = Ret entity_ref (store_with []) /\
   entity_ref <> VNum 1) /\
  (set entity_ref (IsArray ["a"; "a"]) (VNum 5) (store_with [("a", entity_ref)])
     = Ret tt (store_with [("a", VNum 5)]) /\
   get entity_ref (IsArray ["a"; "a"]) (store_with [("a", VNum 5)])
     = Ret VUndefined (store_with [("a", VNum 5)]) /\
   VUndefined <> VNum 5) /\
  (set entity_ref (IsArray ["__proto__"]) (VNum 5) (store_with [])
     = Ret tt (store_with []) /\
   get entity_ref (IsArray ["__proto__"]) (store_with [])
     = Ret (VObj object_prototype) (store_with []) /\
   VObj object_prototype <> VNum 5).
Proof. repeat split; discriminate. Qed.

(** [set(e, ["a","a"], 7)] on [e = {a: {a: 0}}], then [get(e, ["a","a"])]. *)
Lemma set_get_round_trip_witness :
  let h := store_with2 [("a", VObj inner_loc)] [("a", VNum 0)] in
  let h' := store_with2 [("a", VObj inner_loc)] [("a", VNum 7)] in
  unshadowed ["a"; "a"] ["a"] "a" entity_loc h h' /\
  data_target ["a"; "a"] ["a"] "a" entity_loc h /\
  set entity_ref (IsArray ["a"; "a"]) (VNum 7) h = Ret tt h' /\
  get entity_ref (IsArray ["a"; "a"]) h' = Ret (VNum 7) h'.
Proof.
  intros h h'.
  assert (unshadowed ["a"; "a"] ["a"] "a" entity_loc h h') as Hsh.
  { intros q1 q2 o h0 c h1 Hq Hd1 Hd.
    destruct q1 as [|k1 [|k2 q1]]; try discriminate.
    injection Hd1 as <- _. injection Hd as <- _. reflexivity. }
  assert (data_target ["a"; "a"] ["a"] "a" entity_loc h) as Hdt.
  { intros c h1 Hd. injection Hd as <- <-. discriminate. }
  split; [exact Hsh|]. split; [exact Hdt|]. split; [reflexivity|].
  exact (proj2 (set_get_round_trip h h' entity_loc ["a"] "a" (VNum 7))
           Hsh Hdt eq_refl).
Defined.

(** Against C2 as it is stated: [{}] does not own [toString], and
    [get({}, ["toString"])] is the function of [Object.prototype]. *)
Lemma get_own_counterexample :
  store_with [] !! entity_loc = Some (literal []) /\
  own "toString" (props (literal [])) = None /\
  object_like entity_ref = true /\
  get entity_ref (IsArray ["toString"]) (store_with [])
    = Ret (VFun 10) (store_with []) /\
  VFun 10 <> VUndefined.
Proof. repeat split; discriminate. Qed.

(** [get({}, ["toString"])] is inherited; [get({}, ["nothing","x"])]
    finds the name nowhere on the chain. *)
Lemma get_not_own_witness :
  heap_wf (store_with []) = true /\
  store_with [] !! entity_loc = Some (literal []) /\
  own "toString" (props (literal [])) = None /\
  own "nothing" (props (literal [])) = None /\
  get entity_ref (IsArray ["toString"]) (store_with [])
    = Ret (VFun 10) (store_with []) /\
  get entity_ref (IsArray ["nothing"; "x"]) (store_with [])
    = Ret VUndefined (store_with []).
Proof.
  split; [reflexivity|]. split; [reflexivity|]. split; [reflexivity|].
  split; [reflexivity|]. split.
  - exact (get_not_own (store_with []) entity_loc (literal [])
             "toString" [] eq_refl eq_refl eq_refl).
  - exact (get_not_own (store_with []) entity_loc (literal [])
             "nothing" ["x"] eq_refl eq_refl eq_refl).
Defined.

(** [get({a: 3}, ["a","b"])]: a primitive in the middle of the path. *)
Lemma get_never_throws_witness :
  heap_wf (store_with [("a", VNum 3)]) = true /\
  val_ok (store_with [("a", VNum 3)]) entity_ref = true /\
  (exists x, get entity_ref (IsArray ["a"; "b"]) (store_with [("a", VNum 3)])
             = Ret x (store_with [("a", VNum 3)])) /\
  get entity_ref (IsArray ["a"; "b"]) (store_with [("a", VNum 3)])
    = Ret VUndefined (store_with [("a", VNum 3)]).
Proof.
  pose proof (get_never_throws (store_with [("a", VNum 3)]) entity_ref
                ["a"; "b"] eq_refl eq_refl) as [Hret Hundef].
  split; [reflexivity|]. split; [reflexivity|]. split; [exact Hret|].
  apply (Hundef ["a"] "b" [] (VNum 3)); [reflexivity | reflexivity | now left].
Defined.



(** [set({}, ["a","toString","x"], 1)]: [a] is created, then the
    [toString] that the new object inherits blocks the walk; the new
    object and the property [a] stay. *)
Lemma set_conflict_keeps_mutation_witness :
  let h := store_with [] in
  let h' := realm ++ [literal [("a", VObj inner_loc)]; empty_object] in
  set entity_ref (IsArray ["a"; "toString"; "x"]) (VNum 1) h
    = Throw (TypeError (conflict_message ["a"; "toString"; "x"])) h' /\
  length h' <> length h /\
  exists q1 k1 rest c x,
    ["a"; "toString"; "x"] = q1 ++ k1 :: rest /\ rest <> [] /\
    descend ["a"; "toString"; "x"] (VObj entity_loc) q1 h = Ret (VObj c) h' /\
    js_get (VObj c) k1 h' = Ret x h' /\
    object_like x = false /\ loose_eq_null x = false /\
    (forall q0 q2 c0 h0,
       q1 = q0 ++ q2 ->
       descend ["a"; "toString"; "x"] (VObj entity_loc) q0 h
         = Ret (VObj c0) h0 ->
       get (VObj entity_loc) (IsArray q0) h' = Ret (VObj c0) h') /\
    length h <= length h' /\
    preserved_but None h h'.
Proof.
  intros h h'. split; [reflexivity|]. split; [discriminate|].
  apply (set_conflict_keeps_mutation h h' entity_loc ["a"; "toString"; "x"]
           (VNum 1)).
  reflexivity.
Defined.

(** Against C5 as it is stated: on a frozen [{}] the name [a] is
    absent, and [set(e, ["a","b"], 1)] neither gives it a container nor
    goes on: it throws the error of the assignment, and [a] is absent
    still. *)
Lemma set_refused_container_counterexample :
  let h := realm ++ [frozen []] in
  let h' := realm ++ [frozen []; empty_object] in
  heap_wf h = true /\
  lookup_property h entity_loc "a" = Some None /\
  set entity_ref (IsArray ["a"; "b"]) (VNum 1) h
    = Throw not_extensible_error h' /\
  lookup_property h' entity_loc "a" = Some None.
Proof. repeat split. Qed.

(** [set({}, ["a","b"], 1)]: the first iteration creates [a]. *)
Lemma set_creates_containers_witness :
  let h := store_with [] in
  let h2 := realm ++ [literal [("a", VObj inner_loc)]; empty_object] in
  ["b"] <> [] /\
  lookup_property h entity_loc "a" = Some None /\
  h !! entity_loc = Some (literal []) /\
  extensible (literal []) = true /\
  find_property (length h) h entity_loc "a" = Some None /\
  js_put (VObj entity_loc) "a" (VObj inner_loc) (h ++ [empty_object])
    = Ret tt h2 /\
  set_loop ["a"; "b"] (VObj entity_loc) ["a"; "b"] (VNum 1) h
    = set_loop ["a"; "b"] (VObj inner_loc) ["b"] (VNum 1) h2.
Proof.
  intros h h2.
  assert (["b"] <> []) as Hrest by discriminate.
  pose proof (proj1 set_creates_containers ["a"; "b"] entity_loc "a" ["b"]
                (VNum 1) h None Hrest eq_refl eq_refl)
    as (_ & _ & Hret & _ & Hput).
  pose proof (Hput (literal []) eq_refl eq_refl (or_introl eq_refl)) as Hp.
  split; [exact Hrest|]. split; [reflexivity|]. split; [reflexivity|].
  split; [reflexivity|]. split; [reflexivity|]. split; [exact Hp|].
  exact (proj2 (proj2 (Hret tt h2 Hp))).
Defined.

(** Against C6 as it is stated: on an entity whose property [a] is the
    entity itself, [set(e, ["a","a"], 5)] descends into the object that
    [a] holds and then replaces it, under the same name on the same
    object, by [5]. *)
Lemma set_replaces_intermediate_counterexample :
  let h := store_with [("a", entity_ref)] in
  let h' := store_with [("a", VNum 5)] in
  descend ["a"; "a"] entity_ref ["a"] h = Ret entity_ref h /\
  lookup_property h entity_loc "a" = Some (Some entity_ref) /\
  object_like entity_ref = true /\
  set entity_ref (IsArray ["a"; "a"]) (VNum 5) h = Ret tt h' /\
  lookup_property h' entity_loc "a" = Some (Some (VNum 5)).
Proof. repeat split. Qed.

(** [set({a1: 2}, ["a","b"], 1)]: no object has an accessor under [a]
    or [b], and the prototypes are as they were. *)
Lemma set_frame_witness :
  let h := store_with [("a1", VNum 2)] in
  let h' := realm ++ [literal [("a1", VNum 2); ("a", VObj inner_loc)];
                      literal [("b", VNum 1)]] in
  accessor_free h ["a"; "b"] /\
  set entity_ref (IsArray ["a"; "b"]) (VNum 1) h = Ret tt h' /\
  frame (touched ["a"; "b"] entity_loc ["a"; "b"] h)
        (target ["a"; "b"] entity_loc h) h h' /\
  same_prototypes h h'.
Proof.
  intros h h'.
  assert (accessor_free h ["a"; "b"]) as Haf
    by (apply accessor_freeb_spec; reflexivity).
  pose proof (proj1 (set_frame h entity_loc ["a"; "b"] (VNum 1))) as H.
  change (set (VObj entity_loc) (IsArray ["a"; "b"]) (VNum 1) h)
    with (@Ret heap unit tt h') in H.
  split; [exact Haf|]. split; [reflexivity|].
  split; [exact (proj1 H) | exact (proj2 H Haf)].
Defined.

(** The same chain written with [.] and with [?.]. *)
Lemma nameof_string_chain_witness :
  map snd [(false, "a"); (true, "b"); (true, "c")]
    = map snd [(false, "a"); (false, "b"); (false, "c")] /\
  nameof (S := heap) (string_chain [(false, "a"); (true, "b"); (true, "c")]) []
    = nameof (string_chain [(false, "a"); (false, "b"); (false, "c")]) [].
Proof.
  split; [reflexivity|].
  apply (proj2 (proj2 (nameof_string_chain
                         [(false, "a"); (false, "b"); (false, "c")] [])));
    reflexivity.
Defined.

(** * Further properties of the program *)

(** ** The capture engine on any selector *)

(** The only way [nameof] fails is the non-string-key [TypeError], and
    it fails exactly on the selectors with an access whose key is a
    symbol; on all others it returns one name per access.  The caller's
    state is the same in both cases. *)
Theorem nameof_outcome {S} (selector : Selector) (s : S) :
  (exists accesses,
     selector = string_chain accesses /\
     nameof selector s = Ret (map snd accesses) s /\
     length (map snd accesses) = length selector) \/
  (exists before opt id after,
     selector = string_chain before ++ Access opt (KSymbol id) :: after /\
     nameof selector s = Throw non_string_key s).
Proof.
  destruct (selector_split selector) as [[a ->]|(b & o & i & af & ->)].
  - left. exists a. split; [reflexivity|]. split.
    + unfold nameof. now rewrite apply_selector_string_chain.
    + unfold string_chain. now rewrite !length_map.
  - right. exists b, o, i, af. split; [reflexivity|].
    unfold nameof. now rewrite apply_selector_symbol.
Qed.

(** [nameof] of a chain continued by a second chain is the names of the
    first followed by the names of the second; it throws when one of
    the two does, the first going first. *)
Theorem nameof_app {S} (s1 s2 : Selector) (s : S) :
  nameof (s1 ++ s2) s
  = match nameof s1 s with
    | Ret p1 _ =>
        match nameof s2 s with
        | Ret p2 _ => Ret (p1 ++ p2) s
        | Throw e _ => Throw e s
        | Stuck => Stuck
        end
    | Throw e _ => Throw e s
    | Stuck => Stuck
    end.
Proof.
  unfold nameof. rewrite apply_selector_app.
  destruct (apply_selector Proxy s1 []) as [c p1|e p1|]; try reflexivity.
  rewrite apply_selector_shift.
  now destruct (apply_selector Proxy s2 []).
Qed.

(** ** The two forms of the second argument *)

(** [get] and [set] called with a selector of string-named accesses do
    what they do when called with the list of its names. *)
Theorem selector_form_is_path_form (accesses : list (bool * string))
    (entity v : val) (h : heap) :
  get entity (IsFunction (string_chain accesses)) h
    = get entity (IsArray (map snd accesses)) h /\
  set entity (IsFunction (string_chain accesses)) v h
    = set entity (IsArray (map snd accesses)) v h.
Proof.
  unfold get, set, bind. now rewrite !normalize_string_chain.
Qed.

(** Called with a selector that reaches a symbol key, [get] and [set]
    throw the error of [nameof] before they look at the entity: the
    store is the one they were given. *)
Theorem selector_form_symbol_key (before : list (bool * string)) (opt : bool)
    (id : nat) (after : Selector) (entity v : val) (h : heap) :
  let selector := string_chain before ++ Access opt (KSymbol id) :: after in
  get entity (IsFunction selector) h = Throw non_string_key h /\
  set entity (IsFunction selector) v h = Throw non_string_key h.
Proof.
  simpl. unfold get, set, bind, normalize, nameof.
  now rewrite apply_selector_symbol.
Qed.

(** ** get *)

(** [get] never changes the store, whatever it is given and however it
    ends. *)
Theorem get_leaves_store (entity : val) (sp : selectorOrPath) (h : heap) :
  match get entity sp h with
  | Ret _ h' | Throw _ h' => h' = h
  | Stuck => True
  end.
Proof.
  unfold get, bind. destruct sp as [selector|path]; simpl.
  - unfold nameof.
    destruct (apply_selector Proxy selector []) as [c p|e p|]; auto.
    pose proof (get_loop_pure entity p h) as Hp.
    destruct (get_loop entity p h); auto. destruct Hp.
  - unfold ret. pose proof (get_loop_pure entity path h) as Hp.
    destruct (get_loop entity path h); auto. destruct Hp.
Qed.

(** Reading a path in two parts: [get(e, q ++ r)] is [get(x, r)] for the
    [x] that [get(e, q)] returns. *)
Theorem get_app (entity : val) (q r : list string) (h : heap) :
  get entity (IsArray (q ++ r)) h
  = (let! x := get entity (IsArray q) in get x (IsArray r)) h.
Proof.
  unfold get, normalize, bind, ret. rewrite get_loop_app. reflexivity.
Qed.

(** ** set on structure that is already there *)

(** When [get(e, q)] is an object, [set(e, q ++ [k], v)] is the single
    assignment of [k] on that object: nothing is created and no other
    object is written. *)
Theorem set_on_existing_path (h : heap) (e c : loc) (q : list string)
    (k : string) (v : val) :
  get (VObj e) (IsArray q) h = Ret (VObj c) h ->
  set (VObj e) (IsArray (q ++ [k])) v h = js_put (VObj c) k v h.
Proof.
  unfold get, set, normalize, bind, ret, safeCast. intros Hg.
  rewrite set_loop_descend. unfold bind.
  now rewrite (get_loop_descend _ _ _ _ _ _ Hg).
Qed.

(** A second assignment of a data property replaces the first. *)
Lemma put_property_put h c k v1 v o :
  h !! c = Some o ->
  put_property (<[c := with_props o (own_put k (Data v1 true) (props o))]> h)
    c k v
  = Some (inr (<[c := with_props o (own_put k (Data v true) (props o))]> h)).
Proof.
  intros Hc. pose proof (lookup_lt_Some _ _ _ Hc) as Hlt.
  unfold put_property. rewrite length_insert.
  destruct (length h) as [|n] eqn:En; [lia|].
  rewrite (data_put_find_eq h c k v1 o Hc n).
  unfold define_own. rewrite list_lookup_insert_eq by lia. simpl.
  rewrite own_put_eq, own_put_put, list_insert_insert_eq. reflexivity.
Qed.

(** The last write wins: under the provisos of the round trip, a second
    [set] on the same path gives the store that this [set] gives on the
    original store, and repeating a [set] changes nothing. *)
Theorem set_twice (h h1 : heap) (e : loc) (q : list string) (k : string)
    (v1 v2 : val) :
  unshadowed (q ++ [k]) q k e h h1 ->
  data_target (q ++ [k]) q k e h ->
  set (VObj e) (IsArray (q ++ [k])) v1 h = Ret tt h1 ->
  set (VObj e) (IsArray (q ++ [k])) v2 h1
    = set (VObj e) (IsArray (q ++ [k])) v2 h /\
  set (VObj e) (IsArray (q ++ [k])) v1 h1 = Ret tt h1.
Proof.
  intros Hsh Hdt Hset.
  assert (forall v, set (VObj e) (IsArray (q ++ [k])) v h1
                    = set (VObj e) (IsArray (q ++ [k])) v h) as H.
  { intros v. unfold set, normalize, bind, ret, safeCast in *.
    destruct (set_loop_container _ _ _ _ _ _ _ Hsh Hdt Hset)
      as (c & hd & o & Hd & Hc & Hna & Hput & -> & Hg).
    rewrite !set_loop_descend. unfold bind.
    rewrite (get_loop_descend _ _ _ _ _ _ Hg), Hd.
    unfold js_put. rewrite (put_property_put _ _ _ _ _ _ Hc).
    now rewrite (put_property_any_value _ _ _ _ v _ _ Hc Hna Hput). }
  split; [apply H|]. now rewrite H.
Qed.

(** After a successful [set], under the same provisos, every part of
    the path before the last name reads an object, and the whole of it
    reads the object that owns the last name with the value written. *)
Theorem set_builds_path (h h' : heap) (e : loc) (q : list string)
    (k : string) (v : val) :
  unshadowed (q ++ [k]) q k e h h' ->
  data_target (q ++ [k]) q k e h ->
  set (VObj e) (IsArray (q ++ [k])) v h = Ret tt h' ->
  (exists c o, get (VObj e) (IsArray q) h' = Ret (VObj c) h' /\
               h' !! c = Some o /\
               own k (props o) = Some (Data v true)) /\
  (forall q1 q2, q = q1 ++ q2 ->
     exists c1, get (VObj e) (IsArray q1) h' = Ret (VObj c1) h').
Proof.
  intros Hsh Hdt Hset. unfold set, get, normalize, bind, ret, safeCast in *.
  destruct (set_loop_container _ _ _ _ _ _ _ Hsh Hdt Hset)
    as (c & hd & o & Hd & Hc & Hna & Hput & -> & Hg).
  split.
  - exists c. eexists. split; [assumption|]. split.
    + rewrite list_lookup_insert_eq by (eapply lookup_lt_Some; eauto).
      reflexivity.
    + simpl. apply own_put_eq.
  - intros q1 q2 ->. rewrite get_loop_app in Hg. unfold bind in Hg.
    pose proof (get_loop_pure (VObj e) q1
                  (<[c := with_props o (own_put k (Data v true) (props o))]> hd))
      as Hp.
    destruct (get_loop (VObj e) q1
                (<[c := with_props o (own_put k (Data v true) (props o))]> hd))
      as [x hx|ex hx|]; try discriminate.
    subst hx.
    destruct (object_like_inv _ (get_loop_Ret_obj _ _ _ _ _ Hg)) as [c1 ->].
    eauto.
Qed.

(** ** What set leaves readable *)

Lemma set_preserved (h : heap) (e : loc) (p : list string) (v : val) :
  match set (VObj e) (IsArray p) v h with
  | Ret _ h' =>
      (forall k, last p = Some k -> accessor_free h [k]) ->
      preserved_but (last p) h h'
  | Throw _ h' => preserved_but None h h'
  | Stuck => True
  end.
Proof.
  unfold set, normalize, bind, ret, safeCast.
  destruct (decide (p = [])) as [->|Hp]; [intros _; apply preserved_refl|].
  destruct (exists_last Hp) as (q & k & ->).
  rewrite set_loop_descend, last_snoc. unfold bind.
  destruct (descend (q ++ [k]) (VObj e) q h) as [c h1|exn h1|] eqn:Ed;
    [| |exact I].
  - destruct (descend_Ret _ _ _ _ _ _ Ed) as ([lc ->] & Hp1 & _).
    destruct (js_put (VObj lc) k v h1) as [u h'|exn h'|] eqn:Ep; [| |exact I].
    + intros Haf. apply js_put_Ret in Ep as (l' & [= <-] & Hput).
      eapply preserved_trans; [apply preserved_weaken; exact Hp1|].
      apply put_property_Ok in Hput as [(_ & o & Hlc & _ & ->)|(Hfa & _)].
      * now apply preserved_data_final.
      * exfalso.
        exact (data_target_accessor_free (q ++ [k]) q k e h
                 (Haf k eq_refl) lc h1 Ed Hfa).
    + apply js_put_Throw in Ep as [-> _]. assumption.
  - apply descend_Throw in Ed
      as [(_ & q1 & k1 & q2 & c & x & _ & Hd & _)
         |(_ & q1 & k1 & q2 & c & h0 & _ & Hd & _ & ->)];
      destruct (descend_Ret _ _ _ _ _ _ Hd) as (_ & Hp1 & _);
      [assumption|].
    eapply preserved_trans; [exact Hp1 | apply preserved_alloc].
Qed.

(** What could be read before a [set] can be read after it: a path that
    led to a value other than [null] and [undefined], from any object of
    the store, leads to the same value afterwards, unless it goes
    through the name that [set] assigned last, and provided that no
    object has an accessor under that name.  When [set] throws, this
    holds of every path. *)
Theorem set_keeps_reads (h : heap) (e : loc) (p : list string) (v : val) :
  match set (VObj e) (IsArray p) v h with
  | Ret _ h' =>
      (forall k, last p = Some k -> accessor_free h [k]) ->
      forall entity p' x,
        (forall k, In k p' -> Some k <> last p) ->
        get entity (IsArray p') h = Ret x h ->
        loose_eq_null x = false ->
        get entity (IsArray p') h' = Ret x h'
  | Throw _ h' =>
      forall entity p' x,
        get entity (IsArray p') h = Ret x h ->
        loose_eq_null x = false ->
        get entity (IsArray p') h' = Ret x h'
  | Stuck => True
  end.
Proof.
  pose proof (set_preserved h e p v) as Hp.
  destruct (set (VObj e) (IsArray p) v h) as [u h'|exn h'|]; [| |exact I].
  - intros Haf entity p' x. unfold get, normalize, bind, ret.
    intros Hk Hg Hx. eapply get_loop_preserved; eauto.
  - intros entity p' x. unfold get, normalize, bind, ret.
    intros Hg Hx. eapply get_loop_preserved; eauto.
Qed.

(** ** How much set allocates *)

(** [set] removes no object from the store and creates at most one for
    each name of the path but the last, whether it returns or throws. *)
Theorem set_alloc_bound (h : heap) (e : loc) (p : list string) (v : val) :
  match set (VObj e) (IsArray p) v h with
  | Ret _ h' | Throw _ h' =>
      length h <= length h' /\ length h' <= length h + (length p - 1)
  | Stuck => True
  end.
Proof.
  unfold set, normalize, bind, ret, safeCast.
  destruct (decide (p = [])) as [->|Hp]; [simpl; lia|].
  destruct (exists_last Hp) as (q & k & ->).
  rewrite set_loop_descend, length_app. simpl length.
  replace (length q + 1 - 1) with (length q) by lia. unfold bind.
  destruct (descend (q ++ [k]) (VObj e) q h) as [c h1|exn h1|] eqn:Ed;
    [| |exact I].
  - destruct (descend_Ret _ _ _ _ _ _ Ed) as ([lc ->] & _).
    pose proof (descend_length _ _ _ _ _ _ Ed) as Hlen.
    destruct (js_put (VObj lc) k v h1) as [u h'|exn h'|] eqn:Ep; [| |exact I].
    + apply js_put_Ret in Ep as (l' & [= <-] & Hput).
      now rewrite (put_property_length _ _ _ _ _ Hput).
    + apply js_put_Throw in Ep as [-> _]. assumption.
  - apply descend_Throw in Ed
      as [(_ & q1 & k1 & q2 & c & x & -> & Hd & _)
         |(_ & q1 & k1 & q2 & c & h0 & -> & Hd & _ & ->)];
      apply descend_length in Hd; rewrite ?length_app in *; simpl; lia.
Qed.

(** ** set and well-formed stores *)

(** On a well-formed store, with an allocated entity and a value whose
    reference, if it is one, is allocated, [set] returns or throws, and
    the store it leaves is well-formed. *)
Theorem set_keeps_wf (h : heap) (e : loc) (p : list string) (v : val) :
  heap_wf h = true -> e < length h -> val_ok h v = true ->
  match set (VObj e) (IsArray p) v h with
  | Ret _ h' | Throw _ h' => heap_wf h' = true
  | Stuck => False
  end.
Proof.
  intros Hwf He Hv. unfold set, normalize, bind, ret, safeCast.
  destruct (decide (p = [])) as [->|Hp]; [exact Hwf|].
  destruct (exists_last Hp) as (q & k & ->).
  apply heap_wf_iff in Hwf.
  pose proof (set_loop_wf (q ++ [k]) q k e v h Hwf He Hv) as Hs.
  destruct (set_loop (q ++ [k]) (VObj e) (q ++ [k]) v h); auto;
    now apply heap_wf_iff.
Qed.

(** ** A callable entity *)


(** ** Instances of the further properties *)

(** [get(e, ["a"])] is the inner object of [e = {a: {a: 0}}], and
    [set(e, ["a","b"], 1)] assigns [b] on it. *)
Lemma set_on_existing_path_witness :
  let h := store_with2 [("a", VObj inner_loc)] [("a", VNum 0)] in
  get entity_ref (IsArray ["a"]) h = Ret (VObj inner_loc) h /\
  set entity_ref (IsArray ["a"; "b"]) (VNum 1) h
    = Ret tt (store_with2 [("a", VObj inner_loc)]
                          [("a", VNum 0); ("b", VNum 1)]).
Proof.
  intros h. split; [reflexivity|].
  exact (set_on_existing_path h entity_loc inner_loc ["a"] "b" (VNum 1)
           eq_refl).
Defined.

(** [set({}, ["a","b"], 1)] and then [set(e, ["a","b"], 2)]. *)
Lemma set_twice_witness :
  let h := store_with [] in
  let h1 := store_with2 [("a", VObj inner_loc)] [("b", VNum 1)] in
  unshadowed ["a"; "b"] ["a"] "b" entity_loc h h1 /\
  data_target ["a"; "b"] ["a"] "b" entity_loc h /\
  set entity_ref (IsArray ["a"; "b"]) (VNum 1) h = Ret tt h1 /\
  set entity_ref (IsArray ["a"; "b"]) (VNum 2) h1
    = Ret tt (store_with2 [("a", VObj inner_loc)] [("b", VNum 2)]) /\
  set entity_ref (IsArray ["a"; "b"]) (VNum 1) h1 = Ret tt h1.
Proof.
  intros h h1.
  assert (unshadowed ["a"; "b"] ["a"] "b" entity_loc h h1) as Hsh.
  { apply unshadowed_fresh_name. intros [[=]|[]]. }
  assert (data_target ["a"; "b"] ["a"] "b" entity_loc h) as Hdt.
  { intros c hd Hd. injection Hd as <- <-. discriminate. }
  split; [exact Hsh|]. split; [exact Hdt|]. split; [reflexivity|].
  pose proof (set_twice h h1 entity_loc ["a"] "b" (VNum 1) (VNum 2)
                Hsh Hdt eq_refl) as H.
  split; [exact (eq_trans (proj1 H) eq_refl) | exact (proj2 H)].
Defined.

Lemma set_builds_path_witness :
  let h := store_with [] in
  let h' := store_with2 [("a", VObj inner_loc)] [("b", VNum 1)] in
  unshadowed ["a"; "b"] ["a"] "b" entity_loc h h' /\
  data_target ["a"; "b"] ["a"] "b" entity_loc h /\
  set entity_ref (IsArray ["a"; "b"]) (VNum 1) h = Ret tt h' /\
  exists c1, get entity_ref (IsArray ["a"]) h' = Ret (VObj c1) h'.
Proof.
  intros h h'.
  assert (unshadowed ["a"; "b"] ["a"] "b" entity_loc h h') as Hsh.
  { apply unshadowed_fresh_name. intros [[=]|[]]. }
  assert (data_target ["a"; "b"] ["a"] "b" entity_loc h) as Hdt.
  { intros c hd Hd. injection Hd as <- <-. discriminate. }
  split; [exact Hsh|]. split; [exact Hdt|]. split; [reflexivity|].
  exact (proj2 (set_builds_path h h' entity_loc ["a"] "b" (VNum 1)
                  Hsh Hdt eq_refl) ["a"] [] eq_refl).
Defined.

(** [set({a1: 2}, ["a","b"], 1)] and the read of [a1]. *)
Lemma set_keeps_reads_witness :
  let h := store_with [("a1", VNum 2)] in
  let h' := realm ++ [literal [("a1", VNum 2); ("a", VObj inner_loc)];
                      literal [("b", VNum 1)]] in
  (forall k, last ["a"; "b"] = Some k -> accessor_free h [k]) /\
  (forall k, In k ["a1"] -> Some k <> last ["a"; "b"]) /\
  set entity_ref (IsArray ["a"; "b"]) (VNum 1) h = Ret tt h' /\
  get entity_ref (IsArray ["a1"]) h = Ret (VNum 2) h /\
  get entity_ref (IsArray ["a1"]) h' = Ret (VNum 2) h'.
Proof.
  intros h h'.
  assert (forall k, last ["a"; "b"] = Some k -> accessor_free h [k]) as Haf.
  { intros k [= <-]. apply accessor_freeb_spec. reflexivity. }
  assert (forall k, In k ["a1"] -> Some k <> last ["a"; "b"]) as Hk.
  { intros k [<-|[]]. discriminate. }
  pose proof (set_keeps_reads h entity_loc ["a"; "b"] (VNum 1)) as H.
  change (set (VObj entity_loc) (IsArray ["a"; "b"]) (VNum 1) h)
    with (@Ret heap unit tt h') in H.
  split; [exact Haf|]. split; [exact Hk|]. split; [reflexivity|].
  split; [reflexivity|].
  exact (H Haf entity_ref ["a1"] (VNum 2) Hk eq_refl eq_refl).
Defined.

Lemma set_keeps_wf_witness :
  let h := store_with [] in
  heap_wf h = true /\ entity_loc < length h /\
  val_ok h (VNum 1) = true /\
  heap_wf (store_with2 [("a", VObj inner_loc)] [("b", VNum 1)]) = true.
Proof.
  intros h.
  assert (entity_loc < length h) as Hlt by (vm_compute; lia).
  split; [reflexivity|]. split; [exact Hlt|]. split; [reflexivity|].
  exact (set_keeps_wf h entity_loc ["a"; "b"] (VNum 1) eq_refl Hlt eq_refl).
Defined.
